(** * Investor discovery: extraction, storage and display

    A shallow embedding of [investor_match_mvp.py] and the properties of
    its four modules: the article fetcher, the pattern-based extractor,
    the SQLite-backed store and the Streamlit display.

    Conventions of the embedding.
    - A Python [str] is a [list ascii]; a character stands for the code
      point of the same number, so the texts covered are those whose code
      points lie below 256 (ASCII and the Latin-1 supplement).  On that
      range [str.lower], [\s], [\d], [.] and case-insensitive matching are
      the character-wise functions defined below.
    - Code that raises returns a [result]; code that reads the clock, the
      network or the database threads a [World].
    - [re.findall] is a backtracking matcher over the fragment of regular
      expressions the three patterns of the extractor are written in. *)

From Stdlib Require Import Ascii String ZArith NArith Lia Bool.
From stdpp Require Import base list strings gmap sorting.

Set Default Proof Using "Type".
Local Open Scope N_scope.
Local Open Scope nat_scope.

(** ** Strings *)

Abbreviation str := (list ascii).

(** A Python string literal. *)
Definition txt (s : string) : str := list_ascii_of_string s.

(** The code point of a character. *)
Definition code (c : ascii) : N := N_of_ascii c.

Definition between (lo hi n : N) : bool := ((lo <=? n) && (n <=? hi))%N.

(** Characters that [str.lower] changes: A-Z and the capital letters of the
    Latin-1 supplement (U+00C0..U+00DE without the multiplication sign). *)
Definition is_cased_upper (n : N) : bool :=
  between 65 90 n || (between 192 222 n && negb (n =? 215)%N).

Definition is_cased_lower (n : N) : bool :=
  between 97 122 n || (between 224 254 n && negb (n =? 247)%N).

Definition lower_code (n : N) : N := if is_cased_upper n then (n + 32)%N else n.
Definition upper_code (n : N) : N := if is_cased_lower n then (n - 32)%N else n.

Definition to_lower (c : ascii) : ascii := ascii_of_N (lower_code (code c)).

(** [s.lower()] *)
Definition py_lower (s : str) : str := map to_lower s.

(** [sep.join(xs)] *)
Fixpoint join (sep : str) (xs : list str) : str :=
  match xs with
  | [] => []
  | [x] => x
  | x :: rest => x ++ sep ++ join sep rest
  end.

(** [s.startswith(p)] *)
Fixpoint starts_with (p s : str) : bool :=
  match p, s with
  | [], _ => true
  | _ :: _, [] => false
  | a :: p', b :: s' => bool_decide (a = b) && starts_with p' s'
  end.

(** [needle in hay] on strings: substring search, leftmost position first. *)
Fixpoint py_in (needle hay : str) : bool :=
  starts_with needle hay ||
  match hay with
  | [] => false
  | _ :: hay' => py_in needle hay'
  end.

(** What the search decides: [needle] occurs in [hay]. *)
Definition occurs_in (needle hay : str) : Prop :=
  ∃ pre post, hay = pre ++ needle ++ post.

(** ** Regular expressions

    The fragment of Python's [re] syntax the extractor uses.  Code points
    in a pattern are numbers, so a pattern may name characters that no
    text of the embedding contains. *)

(** The code point of a pattern character. *)
Definition cp (c : ascii) : N := N_of_ascii c.

(** One member of a bracketed set. *)
Inductive set_item : Type :=
  | Ch (n : N)            (* a single character *)
  | Rng (lo hi : N)       (* lo-hi *)
  | Digit.                (* \d *)

(** A pattern element that consumes exactly one character. *)
Inductive atom : Type :=
  | ALit (n : N)                  (* a literal (possibly escaped) character *)
  | AAny                          (* .  : anything but a newline *)
  | ASpace                        (* \s *)
  | ASet (items : list set_item). (* [...] *)

Inductive regex : Type :=
  | Atom (a : atom)
  | Lits (w : str)                (* a run of literal characters *)
  | Seq (r1 r2 : regex)           (* r1r2 *)
  | Alt (r1 r2 : regex)           (* r1|r2 *)
  | Opt (r : regex)               (* r?   (greedy) *)
  | Plus (a : atom)               (* a+   (greedy) *)
  | LazyStar (a : atom)           (* a*?  *)
  | Group (n : nat) (r : regex)   (* (r), the n-th capturing group *)
  | Ahead (r : regex).            (* (?=r) *)

(** [w1|w2|...|wn] for literal words. *)
Fixpoint alts (w : str) (ws : list str) : regex :=
  match ws with
  | [] => Lits w
  | w' :: ws' => Alt (Lits w) (alts w' ws')
  end.

(** [\d]: the decimal digits; below 256 these are 0-9. *)
Definition is_decimal (n : N) : bool := between 48 57 n.

(** [\s]: what [str.isspace] accepts below 256. *)
Definition is_space (n : N) : bool :=
  between 9 13 n || between 28 32 n || (n =? 133)%N || (n =? 160)%N.

(** Two code points equal, or equal up to case under [re.IGNORECASE]. *)
Definition same_char (ic : bool) (p n : N) : bool :=
  if ic then (lower_code n =? lower_code p)%N else (n =? p)%N.

Definition item_match (ic : bool) (n : N) (i : set_item) : bool :=
  match i with
  | Ch p => same_char ic p n
  | Rng lo hi =>
      between lo hi n ||
      (ic && (between lo hi (lower_code n) || between lo hi (upper_code n)))
  | Digit => is_decimal n
  end.

Definition atom_match (ic : bool) (a : atom) (c : ascii) : bool :=
  match a with
  | ALit p => same_char ic p (code c)
  | AAny => negb (code c =? 10)%N
  | ASpace => is_space (code c)
  | ASet items => existsb (item_match ic (code c)) items
  end.

(** The text of each capturing group that took part in the match. *)
Abbreviation captures := (gmap nat str).

(** A successful match: the text matched, the text after it, the groups. *)
Definition matched : Type := str * str * captures.

Definition orelse {A} (x y : option A) : option A :=
  match x with Some _ => x | None => y end.

(** The matcher tries the alternatives of a pattern in the order Python's
    engine does and hands each candidate to the continuation [k], which
    stands for the rest of the pattern; [None] from [k] makes the matcher
    backtrack to the next candidate. *)
Section Matcher.
Variable ic : bool.   (* re.IGNORECASE *)

Definition kont : Type := str → str → captures → option matched.

Fixpoint lits_match (w s : str) : option str :=
  match w, s with
  | [], _ => Some s
  | _ :: _, [] => None
  | a :: w', b :: s' =>
      if same_char ic (cp a) (code b) then lits_match w' s' else None
  end.

(** [a*] after [w] has been taken: longest run first. *)
Fixpoint star_greedy (a : atom) (s w : str) (c : captures) (k : kont)
  : option matched :=
  match s with
  | ch :: s' =>
      if atom_match ic a ch
      then orelse (star_greedy a s' (w ++ [ch]) c k) (k w s c)
      else k w s c
  | [] => k w s c
  end.

(** [a*?] after [w] has been taken: shortest run first. *)
Fixpoint star_lazy (a : atom) (s w : str) (c : captures) (k : kont)
  : option matched :=
  orelse (k w s c)
    match s with
    | ch :: s' =>
        if atom_match ic a ch then star_lazy a s' (w ++ [ch]) c k else None
    | [] => None
    end.

Fixpoint rmatch (r : regex) (s : str) (c : captures) (k : kont)
  : option matched :=
  match r with
  | Atom a =>
      match s with
      | ch :: s' => if atom_match ic a ch then k [ch] s' c else None
      | [] => None
      end
  | Lits w =>
      match lits_match w s with
      | Some s' => k (take (length w) s) s' c
      | None => None
      end
  | Seq r1 r2 =>
      rmatch r1 s c (λ w1 s1 c1,
        rmatch r2 s1 c1 (λ w2 s2 c2, k (w1 ++ w2) s2 c2))
  | Alt r1 r2 => orelse (rmatch r1 s c k) (rmatch r2 s c k)
  | Opt r1 => orelse (rmatch r1 s c k) (k [] s c)
  | Plus a =>
      match s with
      | ch :: s' =>
          if atom_match ic a ch then star_greedy a s' [ch] c k else None
      | [] => None
      end
  | LazyStar a => star_lazy a s [] c k
  | Group n r1 => rmatch r1 s c (λ w s' c', k w s' (<[n := w]> c'))
  | Ahead r1 =>
      match rmatch r1 s c (λ w s' c', Some (w, s', c')) with
      | Some (_, _, c') => k [] s c'
      | None => None
      end
  end.

(** One attempt at a fixed start position.  With [must_advance] an empty
    match is refused, as after an empty match at the same position. *)
Definition match_at (r : regex) (s : str) (must_advance : bool)
  : option (str * captures) :=
  match rmatch r s ∅ (λ w s' c,
          if must_advance && bool_decide (w = []) then None
          else Some (w, s', c)) with
  | Some (w, _, c) => Some (w, c)
  | None => None
  end.

(** The successive non-overlapping matches, left to right.  [skip] counts
    the characters still covered by the previous match. *)
Fixpoint scan (r : regex) (s : str) (skip : nat) : list (str * captures) :=
  match skip, s with
  | S n, _ :: s' => scan r s' n
  | S _, [] => []
  | O, _ =>
      let next (w : str) :=
        match s with
        | [] => []
        | _ :: s' => scan r s' (pred (length w))
        end in
      match match_at r s false with
      | None => next []
      | Some (w, c) =>
          (w, c) ::
          match w with
          | _ :: _ => next w
          | [] =>
              match match_at r s true with
              | Some (w2, c2) => (w2, c2) :: next w2
              | None => next []
              end
          end
      end
  end.
End Matcher.

(** A compiled pattern: flags, number of groups, expression. *)
Record pattern : Type := Pattern {
  ignorecase : bool;
  groups : nat;
  expr : regex
}.

(** The text of group [n]; a group that did not take part reads as the
    empty string, as in [re.findall]. *)
Definition group_text (c : captures) (n : nat) : str := default [] (c !! n).

(** [re.findall(p, text)] for a pattern with one group: the group's text
    at each match. *)
Definition findall1 (p : pattern) (text : str) : list str :=
  map (λ m, group_text m.2 1) (scan (ignorecase p) (expr p) text 0).

(** [re.findall(p, text)] for a pattern with several groups: the tuple of
    the groups' texts at each match. *)
Definition findall (p : pattern) (text : str) : list (list str) :=
  map (λ m, map (group_text m.2) (seq 1 (groups p)))
      (scan (ignorecase p) (expr p) text 0).

Infix "·" := Seq (at level 41, right associativity).

(** [re.search(r, s)] finds a match. *)
Definition re_search (ic : bool) (r : regex) (s : str) : bool :=
  match scan ic r s 0 with [] => false | _ => true end.

(** *** The matching relation

    [matches ic r w rest c c']: the expression [r] can match the text [w]
    when [rest] follows it, turning the groups [c] into [c'].  The matcher
    above returns the first such match in Python's priority order. *)

Definition lits_eq (ic : bool) (l w : str) : Prop :=
  Forall2 (λ a b, same_char ic (cp a) (code b) = true) l w.

Inductive matches (ic : bool) : regex → str → str → captures → captures → Prop :=
  | M_atom a ch rest c :
      atom_match ic a ch = true → matches ic (Atom a) [ch] rest c c
  | M_lits l w rest c :
      lits_eq ic l w → matches ic (Lits l) w rest c c
  | M_seq r1 r2 w1 w2 rest c c1 c2 :
      matches ic r1 w1 (w2 ++ rest) c c1 →
      matches ic r2 w2 rest c1 c2 →
      matches ic (Seq r1 r2) (w1 ++ w2) rest c c2
  | M_alt_l r1 r2 w rest c c' :
      matches ic r1 w rest c c' → matches ic (Alt r1 r2) w rest c c'
  | M_alt_r r1 r2 w rest c c' :
      matches ic r2 w rest c c' → matches ic (Alt r1 r2) w rest c c'
  | M_opt_some r w rest c c' :
      matches ic r w rest c c' → matches ic (Opt r) w rest c c'
  | M_opt_none r rest c :
      matches ic (Opt r) [] rest c c
  | M_plus a w rest c :
      w ≠ [] → Forall (λ ch, atom_match ic a ch = true) w →
      matches ic (Plus a) w rest c c
  | M_lazy a w rest c :
      Forall (λ ch, atom_match ic a ch = true) w →
      matches ic (LazyStar a) w rest c c
  | M_group n r w rest c c' :
      matches ic r w rest c c' →
      matches ic (Group n r) w rest c (<[n := w]> c')
  | M_ahead r w rest c c' :
      matches ic r w rest c c' →
      matches ic (Ahead r) [] (w ++ rest) c c'.

(** [w] is matched somewhere in [text]. *)
Definition matches_in (ic : bool) (r : regex) (text w : str) : Prop :=
  ∃ pre post c, text = pre ++ w ++ post ∧ matches ic r w post ∅ c.

(** ** Exceptions and the world the program runs in *)

Inductive exn : Type :=
  | IndexError
  | OperationalError (msg : str)   (* sqlite3.OperationalError *)
  | DatabaseError (msg : str)      (* pandas.errors.DatabaseError *)
  | ReError (pat : str)            (* a pattern outside the embedded fragment *)
  | Exception (msg : str).         (* what fetching or parsing a page raises *)

(** [str(e)] *)
Definition exn_str (e : exn) : str :=
  match e with
  | IndexError => txt "list index out of range"
  | OperationalError msg | DatabaseError msg | Exception msg => msg
  | ReError pat => pat
  end.

Inductive result (A : Type) : Type :=
  | Ok (a : A)
  | Raise (e : exn).
Arguments Ok {A} a.
Arguments Raise {A} e.

(** An [InvestorRecord]: the dictionary built by the extractor and the
    columns of a row of the table [investors] (apart from [id]). *)
Record InvestorRecord : Type := {
  fund : str;
  ticket_size : option str;
  fund_size : option str;
  sectors : str;
  geographies : str;
  stage : str;
  source : str;
  timestamp : str
}.

(** A fetched article, [{"url": url, "text": text}]. *)
Record Article : Type := {
  url : str;
  text : str
}.

(** The table [investors] of [investors.db]: its rows in insertion order,
    each with its [id], and the largest [id] handed out so far (what
    AUTOINCREMENT keeps in [sqlite_sequence]). *)
Record Table : Type := {
  rows : list (Z * InvestorRecord);
  last_id : Z
}.

(** What one run can observe and change. *)
Record World : Type := {
  clock_reads : nat;             (* calls to datetime.now() so far *)
  requests : nat;                (* calls to requests.get so far *)
  warnings : list str;           (* st.warning messages shown, oldest first *)
  investors_db : option Table    (* None: the table does not exist *)
}.

Definition M (A : Type) : Type := World → result A * World.

Global Instance M_ret : MRet M := λ A a w, (Ok a, w).
Global Instance M_bind : MBind M := λ A B f m w,
  match m w with
  | (Ok a, w') => f a w'
  | (Raise e, w') => (Raise e, w')
  end.

Definition raise {A} (e : exn) : M A := λ w, (Raise e, w).

(** [try: body  except Exception as e: handler(e)] *)
Definition try_except {A} (body : M A) (handler : exn → M A) : M A := λ w,
  match body w with
  | (Ok a, w') => (Ok a, w')
  | (Raise e, w') => handler e w'
  end.

(** [for x in xs: acc = body(acc, x)] *)
Fixpoint for_each {A B} (xs : list A) (acc : B) (body : B → A → M B) : M B :=
  match xs with
  | [] => mret acc
  | x :: xs' => acc' ← body acc x; for_each xs' acc' body
  end.

(** [xs[i]] for a non-negative index. *)
Definition py_index {A} (xs : list A) (i : nat) : M A :=
  match xs !! i with
  | Some x => mret x
  | None => raise IndexError
  end.

(** Truth value of a list: non-empty. *)
Definition truthy {A} (xs : list A) : bool :=
  match xs with [] => false | _ => true end.

Definition set_clock_reads (n : nat) (w : World) : World :=
  {| clock_reads := n; requests := requests w;
     warnings := warnings w; investors_db := investors_db w |}.

Definition set_requests (n : nat) (w : World) : World :=
  {| clock_reads := clock_reads w; requests := n;
     warnings := warnings w; investors_db := investors_db w |}.

Definition set_warnings (ws : list str) (w : World) : World :=
  {| clock_reads := clock_reads w; requests := requests w;
     warnings := ws; investors_db := investors_db w |}.

Definition set_investors_db (db : option Table) (w : World) : World :=
  {| clock_reads := clock_reads w; requests := requests w;
     warnings := warnings w; investors_db := db |}.

(** ** More of Python's string library *)

(** The characters [str.strip] removes and [str.isspace] accepts. *)
Definition is_whitespace (c : ascii) : bool := is_space (code c).

(** [s.lstrip()] *)
Fixpoint lstrip (s : str) : str :=
  match s with
  | c :: s' => if is_whitespace c then lstrip s' else s
  | [] => []
  end.

(** [s.strip()] *)
Definition strip (s : str) : str := reverse (lstrip (reverse (lstrip s))).

(** The line boundaries of [str.splitlines] other than CR. *)
Definition is_linebreak (c : ascii) : bool :=
  let n := code c in
  (n =? 10)%N || (n =? 11)%N || (n =? 12)%N || between 28 30 n || (n =? 133)%N.

(** [s.splitlines()], with [cur] the line read so far. *)
Fixpoint splitlines_from (s cur : str) : list str :=
  match s with
  | [] => match cur with [] => [] | _ => [cur] end
  | c :: s' =>
      if (code c =? 13)%N then
        match s' with
        | c' :: s'' =>
            if (code c' =? 10)%N then cur :: splitlines_from s'' []
            else cur :: splitlines_from s' []
        | [] => cur :: splitlines_from s' []
        end
      else if is_linebreak c then cur :: splitlines_from s' []
      else splitlines_from s' (cur ++ [c])
  end.

Definition splitlines (s : str) : list str := splitlines_from s [].

(** Order of strings: by code point, a prefix first. *)
Fixpoint str_leb (a b : str) : bool :=
  match a, b with
  | [], _ => true
  | _ :: _, [] => false
  | x :: a', y :: b' =>
      if (code x <? code y)%N then true
      else if (code y <? code x)%N then false
      else str_leb a' b'
  end.

Fixpoint insert_sorted (x : str) (l : list str) : list str :=
  match l with
  | [] => [x]
  | y :: l' => if str_leb x y then x :: l else y :: insert_sorted x l'
  end.

(** [sorted(xs)] *)
Definition py_sorted (xs : list str) : list str := foldr insert_sorted [] xs.

(** Characters with a meaning of their own in a pattern. *)
Definition is_meta (c : ascii) : bool :=
  bool_decide (c ∈ txt ".^$*+?{}[]\|()").

(** [pat.split("|")], with [cur] the piece read so far. *)
Fixpoint split_bar (pat cur : str) : list str :=
  match pat with
  | [] => [cur]
  | c :: pat' =>
      if bool_decide (c = "|"%char) then cur :: split_bar pat' []
      else split_bar pat' (cur ++ [c])
  end.

(** [re.compile(pat)] for a pattern that is an alternation of literal
    texts; other patterns are outside the embedding. *)
Definition compile_plain (pat : str) : option regex :=
  match split_bar pat [] with
  | w :: ws =>
      if forallb (forallb (λ c, negb (is_meta c))) (w :: ws)
      then Some (alts w ws) else None
  | [] => None
  end.

(** ** The program *)

Definition upper_letters : set_item := Rng (cp "A") (cp "Z").
Definition lower_letters : set_item := Rng (cp "a") (cp "z").
Definition amount_chars : atom := ASet [Digit; Ch (cp ","); Ch (cp ".")].
Definition dollar : atom := ALit (cp "$").

(** [([A-Z][a-zA-Z]+\s(?:Capital|Ventures|Partners|Group|Investments|Fund|Advisors))] *)
Definition fund_regex : regex :=
  Group 1
    (Atom (ASet [upper_letters]) ·
     Plus (ASet [lower_letters; upper_letters]) ·
     Atom ASpace ·
     alts (txt "Capital")
          [txt "Ventures"; txt "Partners"; txt "Group";
           txt "Investments"; txt "Fund"; txt "Advisors"]).

Definition fund_pattern : pattern :=
  {| ignorecase := false; groups := 1; expr := fund_regex |}.

(** The separator set of the ticket pattern, [[-to...]]: a hyphen, the
    letters t and o, and the three characters U+00E2, U+20AC, U+201C that
    the source file has where an en dash was meant. *)
Definition range_separator : atom :=
  ASet [Ch (cp "-"); Ch (cp "t"); Ch (cp "o"); Ch 226; Ch 8364; Ch 8220].

(** [(?i)(cheque|check|ticket|initial investment|typical investment|writes)
    .*?(\$[\d,.]+(?:\s?[-to...]\s?\$?[\d,.]+)?(?:\s?(million|M|billion|B))?)] *)
Definition ticket_regex : regex :=
  Group 1
    (alts (txt "cheque")
          [txt "check"; txt "ticket"; txt "initial investment";
           txt "typical investment"; txt "writes"]) ·
  LazyStar AAny ·
  Group 2
    (Atom dollar ·
     Plus amount_chars ·
     Opt (Opt (Atom ASpace) ·
          Atom range_separator ·
          Opt (Atom ASpace) ·
          Opt (Atom dollar) ·
          Plus amount_chars) ·
     Opt (Opt (Atom ASpace) ·
          Group 3 (alts (txt "million") [txt "M"; txt "billion"; txt "B"]))).

Definition ticket_keywords : pattern :=
  {| ignorecase := true; groups := 3; expr := ticket_regex |}.

(** [\$[\d,.]+(?:\s?(million|billion|M|B))(?=.*?fund)] *)
Definition fund_size_regex : regex :=
  Atom dollar ·
  Plus amount_chars ·
  (Opt (Atom ASpace) ·
   Group 1 (alts (txt "million") [txt "billion"; txt "M"; txt "B"])) ·
  Ahead (LazyStar AAny · Lits (txt "fund")).

Definition fund_size_pattern : pattern :=
  {| ignorecase := false; groups := 1; expr := fund_size_regex |}.

Definition stage_keywords : list str :=
  [txt "seed"; txt "early-stage"; txt "growth-stage"; txt "late-stage";
   txt "Series A"; txt "Series B"].

Definition sector_keywords : list str :=
  [txt "consumer tech"; txt "fintech"; txt "edtech"; txt "healthtech";
   txt "sustainability"; txt "AI"; txt "crypto"].

Definition geography_keywords : list str :=
  [txt "India"; txt "Southeast Asia"; txt "Singapore"; txt "Indonesia";
   txt "Asia"].

(** [[s for s in keywords if s.lower() in text.lower()]] *)
Definition keywords_in (keywords : list str) (text : str) : list str :=
  List.filter (λ s, py_in (py_lower s) (py_lower text)) keywords.

(** [list(set(xs))]: the distinct elements, in an order the program does
    not control. *)
Definition list_of_set (xs : list str) : list str :=
  elements (list_to_set xs : gset str).

(** What the network answers to a GET and the HTML parser makes of it:
    the texts of the [<p>] elements, or the exception raised on the way. *)
Inductive response : Type :=
  | Page (paragraphs : list str)
  | Fails (e : exn).

(** The largest row id SQLite can hand out. *)
Definition max_rowid : Z := 2 ^ 63 - 1.

(** The largest id among the rows of a table (0 when it is empty). *)
Definition largest_id (rs : list (Z * InvestorRecord)) : Z :=
  foldr (λ row m, Z.max row.1 m) 0%Z rs.

(** [c.execute("INSERT INTO investors (...) VALUES (...)", e)] on an open
    connection whose pending state of the table is [conn].  AUTOINCREMENT
    takes an id larger than every id used before. *)
Definition execute_insert (e : InvestorRecord) (conn : option Table)
  : result (option Table) :=
  match conn with
  | None => Raise (OperationalError (txt "no such table: investors"))
  | Some t =>
      let id := (Z.max (last_id t) (largest_id (rows t)) + 1)%Z in
      if (id >? max_rowid)%Z
      then Raise (OperationalError (txt "database or disk is full"))
      else Ok (Some {| rows := rows t ++ [(id, e)]; last_id := id |})
  end.

Fixpoint execute_inserts (entries : list InvestorRecord) (conn : option Table)
  : result (option Table) :=
  match entries with
  | [] => Ok conn
  | e :: entries' =>
      match execute_insert e conn with
      | Ok conn' => execute_inserts entries' conn'
      | Raise x => Raise x
      end
  end.

Definition with_source (src : str) (r : InvestorRecord) : InvestorRecord :=
  {| fund := fund r; ticket_size := ticket_size r; fund_size := fund_size r;
     sectors := sectors r; geographies := geographies r; stage := stage r;
     source := src; timestamp := timestamp r |}.

Section Program.
(** The wall clock: [now k] is what call number [k] of
    [datetime.now().strftime("%Y-%m-%d %H:%M:%S")] returns. *)
Variable now : nat → str.
(** The network: [http_get k u] is the outcome of request number [k],
    made for the address [u]. *)
Variable http_get : nat → str → response.
(** What the user typed in the sidebar's text area. *)
Variable url_input : str.
(** [multiselect label options]: what the user picked in a multi-select. *)
Variable multiselect : str → list str → list str.

(** *** Module 1: the fetcher *)

Definition st_warning (msg : str) : M unit := λ w,
  (Ok (), set_warnings (warnings w ++ [msg]) w).

(** [requests.get], [BeautifulSoup], [find_all('p')] and the join of the
    paragraphs' texts. *)
Definition fetch_text (u : str) : M str := λ w,
  let w' := set_requests (S (requests w)) w in
  match http_get (requests w) u with
  | Page paragraphs => (Ok (join (txt " ") paragraphs), w')
  | Fails e => (Raise e, w')
  end.

(** [[url.strip() for url in url_input.splitlines() if url.strip()]] *)
Definition entered_urls : list str :=
  omap (λ u, if truthy (strip u) then Some (strip u) else None)
       (splitlines url_input).

(** The loop over the addresses: a page that cannot be fetched or parsed
    leaves a warning and the loop goes on. *)
Definition fetch_each (urls : list str) : M (list Article) :=
  for_each urls [] (λ articles u,
    try_except
      (t ← fetch_text u;
       mret (articles ++ [{| url := u; text := t |}]))
      (λ e,
       _ ← st_warning (txt "Failed to fetch " ++ u ++ txt ": " ++ exn_str e);
       mret articles)).

Definition fetch_articles_from_user_input : M (list Article) :=
  fetch_each entered_urls.

(** *** Module 2: the extractor *)

Definition datetime_now : M str := λ w,
  (Ok (now (clock_reads w)), set_clock_reads (S (clock_reads w)) w).

Definition extract_data_from_text (text url : str) : M (list InvestorRecord) :=
  let funds := list_of_set (findall1 fund_pattern text) in
  let fund_size := findall1 fund_size_pattern text in
  let ticket_info := findall ticket_keywords text in
  let stages := keywords_in stage_keywords text in
  let sectors := keywords_in sector_keywords text in
  let geographies := keywords_in geography_keywords text in
  for_each funds [] (λ extracted fund,
    ticket ← (if truthy ticket_info
              then m ← py_index ticket_info 0;
                   g ← py_index m 1; mret (Some g)
              else mret None);
    size ← (if truthy fund_size
            then g ← py_index fund_size 0; mret (Some g)
            else mret None);
    stamp ← datetime_now;
    mret (extracted ++
          [{| fund := fund;
              ticket_size := ticket;
              fund_size := size;
              sectors := join (txt ", ") sectors;
              geographies := join (txt ", ") geographies;
              stage := join (txt ", ") stages;
              source := url;
              timestamp := stamp |}])).

(** *** Module 3: the database *)

(** [CREATE TABLE IF NOT EXISTS investors (...)], committed. *)
Definition init_db : M unit := λ w,
  match investors_db w with
  | Some _ => (Ok (), w)
  | None => (Ok (), set_investors_db (Some {| rows := []; last_id := 0 |}) w)
  end.

(** The inserts run in one transaction, which is committed after the loop;
    an insert that raises leaves the database as it was. *)
Definition insert_data_to_db (entries : list InvestorRecord) : M unit := λ w,
  match execute_inserts entries (investors_db w) with
  | Ok conn => (Ok (), set_investors_db conn w)
  | Raise x => (Raise x, w)
  end.

(** [pd.read_sql_query("SELECT * FROM investors", conn)] *)
Definition read_sql_query : M (list (Z * InvestorRecord)) := λ w,
  match investors_db w with
  | Some t => (Ok (rows t), w)
  | None => (Raise (DatabaseError (txt "no such table: investors")), w)
  end.

(** *** Module 4: the user interface *)

(** [df[df[col].str.contains('|'.join(selected))]] when something is
    selected, [df] otherwise. *)
Definition filter_rows (col : InvestorRecord → str) (selected : list str)
    (df : list (Z * InvestorRecord)) : M (list (Z * InvestorRecord)) :=
  if truthy selected then
    match compile_plain (join (txt "|") selected) with
    | Some r => mret (List.filter (λ row, re_search false r (col row.2)) df)
    | None => raise (ReError (join (txt "|") selected))
    end
  else mret df.

(** The options of a filter: [sorted(df[col].dropna().unique())]. *)
Definition filter_options (col : InvestorRecord → str)
    (df : list (Z * InvestorRecord)) : list str :=
  py_sorted (remove_dups (map (λ row, col row.2) df)).

(** The second half of [streamlit_ui]: read the table, filter, display.
    Returns the rows shown, without their [id].  The title and the heading
    are text on the page and change nothing that is kept here. *)
Definition show_investors : M (list InvestorRecord) :=
  df ← read_sql_query;
  let sector_filter :=
    multiselect (txt "Filter by Sector") (filter_options sectors df) in
  let geo_filter :=
    multiselect (txt "Filter by Geography") (filter_options geographies df) in
  df ← filter_rows sectors sector_filter df;
  df ← filter_rows geographies geo_filter df;
  let df := map (λ row : Z * InvestorRecord,
                   (row.1, with_source (txt "[Link](" ++ source row.2 ++ txt ")")
                                       row.2)) df in
  mret (map snd df).

Definition streamlit_ui : M (list InvestorRecord) :=
  _ ← init_db;
  articles ← fetch_articles_from_user_input;
  _ ← for_each articles () (λ _ article,
        extracted ← extract_data_from_text (text article) (url article);
        insert_data_to_db extracted);
  show_investors.
End Program.

(** ** Vocabulary of the properties *)

(** The world after [n] more readings of the clock. *)
Definition advance_clock (n : nat) (w : World) : World :=
  set_clock_reads (n + clock_reads w) w.

(** Group 2 of the first match of the ticket pattern, if there is one. *)
Definition first_ticket (text : str) : option str :=
  (λ m, group_text m.2 2) <$> head (scan true ticket_regex text 0).

(** Group 1 of the first match of the fund-size pattern, if there is one. *)
Definition first_fund_size (text : str) : option str :=
  (λ m, group_text m.2 1) <$> head (scan false fund_size_regex text 0).

(** The record emitted for one fund name. *)
Definition record_of (text url name stamp : str) : InvestorRecord :=
  {| fund := name;
     ticket_size := first_ticket text;
     fund_size := first_fund_size text;
     sectors := join (txt ", ") (keywords_in sector_keywords text);
     geographies := join (txt ", ") (keywords_in geography_keywords text);
     stage := join (txt ", ") (keywords_in stage_keywords text);
     source := url;
     timestamp := stamp |}.

(** The fund names of an article, as the extractor enumerates them. *)
Definition funds_of (text : str) : list str :=
  list_of_set (findall1 fund_pattern text).

(** Two records carry the same article-level values. *)
Definition same_article_values (r r' : InvestorRecord) : Prop :=
  ticket_size r = ticket_size r' ∧ fund_size r = fund_size r' ∧
  sectors r = sectors r' ∧ geographies r = geographies r' ∧
  stage r = stage r'.

(** A keyword of [vocabulary] is selected when its lowercase form occurs
    in the lowercased text; [selection vocabulary text ks] says that [ks]
    lists the selected keywords in the order of the vocabulary. *)
Definition selection (vocabulary : list str) (text : str) (ks : list str) : Prop :=
  sublist ks vocabulary ∧
  ∀ k, k ∈ ks ↔ k ∈ vocabulary ∧ occurs_in (py_lower k) (py_lower text).

(** A world in which nothing has happened yet, and a clock that is stuck,
    for running the program on examples. *)
Definition fresh_world : World :=
  {| clock_reads := 0; requests := 0; warnings := []; investors_db := None |}.

Definition fixed_clock : nat → str := λ _, txt "2024-01-01 00:00:00".

(** The shape of a fund name: a capital letter A-Z, one or more letters,
    one whitespace character and a word of the suffix vocabulary. *)
Definition is_upper (c : ascii) : bool := between 65 90 (code c).

Definition is_letter (c : ascii) : bool :=
  between 97 122 (code c) || between 65 90 (code c).

Definition capitalized_word (w : str) : Prop :=
  ∃ c cs, w = c :: cs ∧ is_upper c = true ∧ cs ≠ [] ∧
          Forall (λ x, is_letter x = true) cs.

Definition fund_suffixes : list str :=
  [txt "Capital"; txt "Ventures"; txt "Partners"; txt "Group";
   txt "Investments"; txt "Fund"; txt "Advisors"].

Definition fund_phrase (p : str) : Prop :=
  ∃ w sp suffix, p = w ++ sp :: suffix ∧ capitalized_word w ∧
                 is_whitespace sp = true ∧ suffix ∈ fund_suffixes.

(** The fund names a left-to-right scan for fund phrases finds: none when
    no fund phrase occurs in the text; otherwise the phrase at the leftmost
    position where one begins, and then those the scan finds in the text
    after the end of that phrase. *)
Inductive leftmost_phrases : str → list str → Prop :=
  | LP_none text :
      (∀ p, fund_phrase p → ¬ occurs_in p text) →
      leftmost_phrases text []
  | LP_next text pre m post ms :
      text = pre ++ m ++ post →
      fund_phrase m →
      (∀ pre' p post',
         text = pre' ++ p ++ post' → fund_phrase p →
         length pre ≤ length pre') →
      leftmost_phrases post ms →
      leftmost_phrases text (m :: ms).

(** The words that end an amount. *)
Definition unit_words : list str :=
  [txt "million"; txt "billion"; txt "M"; txt "B"].

(** [kw] is one of the entries of a comma-and-space joined field. *)
Definition listed (kw field : str) : Prop :=
  ∃ before after, field = join (txt ", ") (before ++ kw :: after).

(** The rows AUTOINCREMENT adds for [entries] when the largest id used so
    far is [b]: ids [b + 1], [b + 2], ... in the order of the entries. *)
Fixpoint number_from (b : Z) (entries : list InvestorRecord)
  : list (Z * InvestorRecord) :=
  match entries with
  | [] => []
  | e :: entries' => ((b + 1)%Z, e) :: number_from (b + 1)%Z entries'
  end.

(** The largest id a table has used. *)
Definition high_water (t : Table) : Z := Z.max (last_id t) (largest_id (rows t)).

(** A filter value without pattern metacharacters. *)
Definition plain (v : str) : Prop := forallb (λ c, negb (is_meta c)) v = true.

(** A field passes a filter when nothing is selected or one of the selected
    values occurs in it. *)
Definition passes (selected : list str) (field : str) : Prop :=
  selected = [] ∨ ∃ v, v ∈ selected ∧ occurs_in v field.

(** The link shown for a source address. *)
Definition as_link (r : InvestorRecord) : InvestorRecord :=
  with_source (txt "[Link](" ++ source r ++ txt ")") r.

(** What request number [k] for the address [u] contributes: an article, or
    a warning. *)
Definition article_of (http_get : nat → str → response) (k : nat) (u : str)
  : option Article :=
  match http_get k u with
  | Page paragraphs => Some {| url := u; text := join (txt " ") paragraphs |}
  | Fails _ => None
  end.

Definition warning_of (http_get : nat → str → response) (k : nat) (u : str)
  : option str :=
  match http_get k u with
  | Page _ => None
  | Fails e => Some (txt "Failed to fetch " ++ u ++ txt ": " ++ exn_str e)
  end.

(** [pick first us f]: the results of [f] on the addresses [us], numbered
    from [first], where it has one. *)
Fixpoint pick {A} (first : nat) (us : list str) (f : nat → str → option A)
  : list A :=
  match us with
  | [] => []
  | u :: us' =>
      match f first u with
      | Some a => a :: pick (S first) us' f
      | None => pick (S first) us' f
      end
  end.

(** A record and a table for running the store on an example. *)
Definition sample_record : InvestorRecord :=
  {| fund := txt "Sequoia Capital"; ticket_size := Some (txt "$500,000");
     fund_size := None; sectors := txt "fintech"; geographies := txt "India";
     stage := txt "seed"; source := txt "http://example.org/a";
     timestamp := txt "2024-01-01 00:00:00" |}.

Definition world_with (t : Table) : World :=
  {| clock_reads := 0; requests := 0; warnings := [];
     investors_db := Some t |}.

(** A table with two rows and a user who selects one sector, for running
    the display on an example. *)
Definition two_rows : Table :=
  {| rows := [(1%Z, sample_record);
              (2%Z, {| fund := txt "Alpha Ventures"; ticket_size := None;
                       fund_size := Some (txt "M");
                       sectors := txt "AI, crypto";
                       geographies := txt "Singapore, Asia";
                       stage := txt ""; source := txt "http://example.org/b";
                       timestamp := txt "2024-01-01 00:00:01" |})];
     last_id := 2 |}.

Definition select_ai_crypto (label : str) (options : list str) : list str :=
  if bool_decide (label = txt "Filter by Sector") then [txt "AI, crypto"]
  else [].

(** A fund-size mention, in the words of the specification: a dollar
    amount that carries one of the unit words, followed later on the same
    line by "fund". *)
Definition is_amount_char (c : ascii) : bool :=
  is_decimal (code c) || (code c =? 44)%N || (code c =? 46)%N.

Definition amount_with_unit (m u : str) : Prop :=
  ∃ digits gap,
    m = "$"%char :: digits ++ gap ++ u ∧
    digits ≠ [] ∧ Forall (λ c, is_amount_char c = true) digits ∧
    (gap = [] ∨ ∃ sp, gap = [sp] ∧ is_whitespace sp = true) ∧
    u ∈ unit_words.

Definition fund_follows (post : str) : Prop :=
  ∃ gap post',
    post = gap ++ txt "fund" ++ post' ∧
    Forall (λ c, atom_match false AAny c = true) gap.

(** The rows a database holds; one without the table holds none. *)
Definition rows_of (db : option Table) : list (Z * InvestorRecord) :=
  match db with
  | Some t => rows t
  | None => []
  end.

Definition stored_rows (w : World) : list (Z * InvestorRecord) :=
  rows_of (investors_db w).

(** The store of [w] holds the rows [base], in order, and maybe more after
    them. *)
Definition extends (base : list (Z * InvestorRecord)) (w : World) : Prop :=
  ∃ added, stored_rows w = base ++ added.

(** A scanner for the letter pair "to", in either case: the state is
    [Some b] while the pair has not been seen, with [b] telling whether the
    last character was a "t", and [None] once it has. *)
Definition is_t (c : ascii) : bool := (lower_code (code c) =? 116)%N.
Definition is_o (c : ascii) : bool := (lower_code (code c) =? 111)%N.

Definition step_to (st : option bool) (c : ascii) : option bool :=
  match st with
  | None => None
  | Some after_t => if after_t && is_o c then None else Some (is_t c)
  end.

(** Neither a "t" nor an "o". *)
Definition neutral (c : ascii) : bool := negb (is_t c) && negb (is_o c).

(** All 256 characters. *)
Definition all_ascii : list ascii := map ascii_of_nat (seq 0 256).

(** What a user may type: two addresses around a blank line. *)
Definition newline : ascii := "010"%char.

Definition sample_input : str :=
  txt "  http://example.org/a" ++ [newline] ++ txt "   " ++ [newline] ++
  txt "http://example.org/b ".

(** The ids of the stored rows, in the order of the table, and what it
    means for them to go strictly upwards. *)
Definition ids (w : World) : list Z := map fst (stored_rows w).

Definition ascending (l : list Z) : Prop := StronglySorted Z.lt l.

(** The address and the fund name a row was stored for, and the pairs one
    article gives rise to: one per distinct fund name of its text. *)
Definition row_key (row : Z * InvestorRecord) : str * str :=
  (source row.2, fund row.2).

Definition rows_for (a : Article) : list (str * str) :=
  map (λ name, (url a, name)) (funds_of (text a)).

(** The articles a run started in [w] fetches: one per entered address
    whose request yields a page. *)
Definition fetched (http_get : nat → str → response) (url_input : str)
    (w : World) : list Article :=
  pick (requests w) (entered_urls url_input) (article_of http_get).

(** The loop of [streamlit_ui] over the fetched articles. *)
Definition store_articles (now : nat → str) (articles : list Article) : M unit :=
  for_each articles () (λ _ article,
    extracted ← extract_data_from_text now (text article) (url article);
    insert_data_to_db extracted).

(** The row holds the record the extractor builds for one fund name of the
    article. *)
Definition record_from (a : Article) (row : Z * InvestorRecord) : Prop :=
  ∃ name stamp,
    name ∈ funds_of (text a) ∧ row.2 = record_of (text a) (url a) name stamp.

(** Two worlds with the same requests and warnings. *)
Definition same_outside_store (w w' : World) : Prop :=
  requests w' = requests w ∧ warnings w' = warnings w.

(** The order [sorted] puts strings in. *)
Definition str_le (a b : str) : Prop := str_leb a b = true.

(** The cue words of the ticket pattern, group 1. *)
Definition ticket_cues : list str :=
  [txt "cheque"; txt "check"; txt "ticket"; txt "initial investment";
   txt "typical investment"; txt "writes"].

(** [cue] is a cue word as the ticket pattern compares it: character by
    character under [re.IGNORECASE]. *)
Definition cue_match (cue : str) : Prop :=
  ∃ l, l ∈ ticket_cues ∧ lits_eq true l cue.

(** A line as a careful user types it: not empty, no white space at either
    end, no line boundary inside. *)
Definition clean_line (u : str) : Prop :=
  u ≠ [] ∧
  (∀ c, head u = Some c → is_whitespace c = false) ∧
  (∀ c, last u = Some c → is_whitespace c = false) ∧
  Forall (λ c, is_linebreak c = false ∧ code c ≠ 13%N) u.

(** More examples to run the program on: two addresses, a network that
    answers every request with the same page or with a page of two
    paragraphs, users who select nothing, everything or the empty value,
    and a table with a row that has no sector and no geography. *)
Definition sample_urls : list str :=
  [txt "http://example.org/a"; txt "http://example.org/b?q=1 2"].

Definition sample_page (k : nat) (u : str) : response :=
  Page [txt "Acme Capital said no"].

Definition two_paragraphs (k : nat) (u : str) : response :=
  Page [txt "A word from Acme"; txt "Capital is scarce"].

Definition select_nothing (label : str) (options : list str) : list str := [].

Definition select_all (label : str) (options : list str) : list str := options.

Definition select_blank (label : str) (options : list str) : list str :=
  List.filter (λ v, bool_decide (v = [])) options.

Definition blank_rows : Table :=
  {| rows := rows two_rows ++
             [(3%Z, {| fund := txt "Beta Group"; ticket_size := None;
                       fund_size := None; sectors := txt "";
                       geographies := txt ""; stage := txt "";
                       source := txt "http://example.org/c";
                       timestamp := txt "2024-01-01 00:00:02" |})];
     last_id := 3 |}.

(** * Properties *)

(** ** Strings *)

Lemma starts_with_spec p s :
  starts_with p s = true ↔ ∃ post, s = p ++ post.
Proof.
  revert s. induction p as [|a p IH]; intros s; simpl.
  - split; eauto.
  - destruct s as [|b s].
    + split; [discriminate | intros [post H]; discriminate].
    + rewrite andb_true_iff, bool_decide_eq_true, IH. split.
      * intros [-> [post ->]]. eauto.
      * intros [post H]. injection H as -> ->. eauto.
Qed.

Lemma py_in_spec needle hay :
  py_in needle hay = true ↔ occurs_in needle hay.
Proof.
  unfold occurs_in. induction hay as [|c hay IH]; simpl.
  - rewrite orb_false_r, starts_with_spec. split.
    + intros [post H]. exists [], post. exact H.
    + intros [pre [post H]]. destruct pre; simpl in H; [eauto | discriminate].
  - rewrite orb_true_iff, starts_with_spec, IH. split.
    + intros [[post H] | [pre [post H]]].
      * exists [], post. exact H.
      * exists (c :: pre), post. simpl. by rewrite H.
    + intros [pre [post H]]. destruct pre as [|c' pre]; simpl in H.
      * left. eauto.
      * right. injection H as _ H. eauto.
Qed.

Lemma not_occurs_in needle hay : py_in needle hay = false → ¬ occurs_in needle hay.
Proof. intros H Hocc. apply py_in_spec in Hocc. congruence. Qed.

Lemma py_lower_app s1 s2 : py_lower (s1 ++ s2) = py_lower s1 ++ py_lower s2.
Proof. apply map_app. Qed.

Lemma occurs_in_lower needle hay :
  occurs_in needle hay → occurs_in (py_lower needle) (py_lower hay).
Proof.
  intros [pre [post ->]]. exists (py_lower pre), (py_lower post).
  by rewrite !py_lower_app.
Qed.

Lemma occurs_in_trans a b c : occurs_in a b → occurs_in b c → occurs_in a c.
Proof.
  intros [p1 [q1 ->]] [p2 [q2 ->]]. exists (p2 ++ p1), (q1 ++ q2).
  by rewrite <- !app_assoc.
Qed.

Lemma join_cons_cons sep x y l :
  join sep (x :: y :: l) = x ++ sep ++ join sep (y :: l).
Proof. reflexivity. Qed.

Lemma join_nil_inv sep xs : join sep xs = [] → Forall (λ x, x = []) xs.
Proof.
  induction xs as [|x xs IH]; intros H; [constructor|].
  destruct xs as [|y xs].
  - simpl in H. subst. repeat constructor.
  - change (x ++ sep ++ join sep (y :: xs) = []) in H.
    apply app_eq_nil in H as [-> H]. apply app_eq_nil in H as [_ H].
    constructor; [done | by apply IH].
Qed.

Lemma head_elem_of {A} (l : list A) x : head l = Some x → x ∈ l.
Proof. destruct l; simpl; [done|]. intros [= ->]. left. Qed.

Lemma code_inj a b : code a = code b → a = b.
Proof.
  unfold code. intros H.
  rewrite <- (ascii_N_embedding a), <- (ascii_N_embedding b). by rewrite H.
Qed.

(** A property of characters that holds of each of the 256 holds of all. *)
Lemma ascii_all (P : ascii → bool) :
  forallb P all_ascii = true → ∀ c, P c = true.
Proof.
  intros H c. rewrite forallb_forall in H. apply H.
  rewrite <- (ascii_nat_embedding c). apply in_map, in_seq.
  pose proof (nat_ascii_bounded c). lia.
Qed.

(** ** The matcher against the matching relation *)

Section MatcherProps.
Variable ic : bool.

Lemma orelse_Some {A} (x y : option A) (a : A) :
  orelse x y = Some a → x = Some a ∨ y = Some a.
Proof. destruct x; simpl; auto. Qed.

Lemma orelse_is_Some {A} (x y : option A) :
  is_Some x ∨ is_Some y → is_Some (orelse x y).
Proof. destruct x; simpl; [eauto | by intros [[? ?]|?]]. Qed.

Lemma lits_match_sound l s s' :
  lits_match ic l s = Some s' →
  s = take (length l) s ++ s' ∧ lits_eq ic l (take (length l) s).
Proof.
  revert s. induction l as [|a l IH]; intros s H; simpl in *.
  - injection H as ->. split; [done | constructor].
  - destruct s as [|b s]; [done|].
    destruct (same_char ic (cp a) (code b)) eqn:E; [|done].
    destruct (IH _ H) as [Hs Hl]. simpl. split; [by f_equal|].
    by constructor.
Qed.

Lemma lits_match_complete l w rest :
  lits_eq ic l w →
  lits_match ic l (w ++ rest) = Some rest ∧ take (length l) (w ++ rest) = w.
Proof.
  induction 1 as [|a b l w Hab _ IH]; simpl; [done|].
  rewrite Hab. destruct IH as [-> ->]. done.
Qed.

Lemma star_greedy_sound a s w c k res :
  star_greedy ic a s w c k = Some res →
  ∃ w' s', s = w' ++ s' ∧ Forall (λ ch, atom_match ic a ch = true) w' ∧
           k (w ++ w') s' c = Some res.
Proof.
  revert w. induction s as [|ch s IH]; intros w H; simpl in H.
  - exists [], []. rewrite ?app_nil_r. auto.
  - destruct (atom_match ic a ch) eqn:E.
    + apply orelse_Some in H as [H|H].
      * destruct (IH _ H) as (w' & s' & -> & Hall & Hk).
        exists (ch :: w'), s'. rewrite <- app_assoc in Hk. auto.
      * exists [], (ch :: s). rewrite ?app_nil_r. auto.
    + exists [], (ch :: s). rewrite ?app_nil_r. auto.
Qed.

Lemma star_lazy_sound a s w c k res :
  star_lazy ic a s w c k = Some res →
  ∃ w' s', s = w' ++ s' ∧ Forall (λ ch, atom_match ic a ch = true) w' ∧
           k (w ++ w') s' c = Some res.
Proof.
  revert w. induction s as [|ch s IH]; intros w H; simpl in H.
  - apply orelse_Some in H as [H|H]; [|done].
    exists [], []. rewrite ?app_nil_r. auto.
  - apply orelse_Some in H as [H|H].
    + exists [], (ch :: s). rewrite ?app_nil_r. auto.
    + destruct (atom_match ic a ch) eqn:E; [|done].
      destruct (IH _ H) as (w' & s' & -> & Hall & Hk).
      exists (ch :: w'), s'. rewrite <- app_assoc in Hk. auto.
Qed.

(** Whatever the matcher returns went through a match of the expression. *)
Lemma rmatch_sound r s c k res :
  rmatch ic r s c k = Some res →
  ∃ w s' c', s = w ++ s' ∧ matches ic r w s' c c' ∧ k w s' c' = Some res.
Proof.
  revert s c k res.
  induction r as [a|l|r1 IH1 r2 IH2|r1 IH1 r2 IH2|r1 IH1|a|a|n r1 IH1|r1 IH1];
    intros s c k res H; simpl in H.
  - destruct s as [|ch s]; [done|].
    destruct (atom_match ic a ch) eqn:E; [|done].
    exists [ch], s, c. split; [done|]. split; [by constructor | done].
  - destruct (lits_match ic l s) as [s'|] eqn:E; [|done].
    apply lits_match_sound in E as [Hs Hl].
    exists (take (length l) s), s', c. split; [done|].
    split; [by constructor | done].
  - apply IH1 in H as (w1 & s1 & c1 & -> & Hm1 & H).
    apply IH2 in H as (w2 & s2 & c2 & -> & Hm2 & H).
    exists (w1 ++ w2), s2, c2. rewrite <- app_assoc. split; [done|].
    split; [by econstructor | done].
  - apply orelse_Some in H as [H|H].
    + apply IH1 in H as (w & s' & c' & -> & Hm & H).
      exists w, s', c'. split; [done|]. split; [by apply M_alt_l | done].
    + apply IH2 in H as (w & s' & c' & -> & Hm & H).
      exists w, s', c'. split; [done|]. split; [by apply M_alt_r | done].
  - apply orelse_Some in H as [H|H].
    + apply IH1 in H as (w & s' & c' & -> & Hm & H).
      exists w, s', c'. split; [done|]. split; [by apply M_opt_some | done].
    + exists [], s, c. split; [done|]. split; [apply M_opt_none | done].
  - destruct s as [|ch s]; [done|].
    destruct (atom_match ic a ch) eqn:E; [|done].
    apply star_greedy_sound in H as (w' & s' & -> & Hall & H).
    exists (ch :: w'), s', c. split; [done|].
    split; [apply M_plus; [done | by constructor] | done].
  - apply star_lazy_sound in H as (w' & s' & -> & Hall & H).
    exists w', s', c. split; [done|]. split; [by apply M_lazy | done].
  - apply IH1 in H as (w & s' & c' & -> & Hm & H).
    exists w, s', (<[n := w]> c'). split; [done|].
    split; [by apply M_group | done].
  - destruct (rmatch ic r1 s c _) as [[[x y] c']|] eqn:E; [|done].
    apply IH1 in E as (w & s' & c2 & -> & Hm & E).
    injection E as _ _ ->.
    exists [], (w ++ s'), c'. split; [done|].
    split; [by apply M_ahead | done].
Qed.

Lemma star_greedy_complete a w rest acc c k :
  Forall (λ ch, atom_match ic a ch = true) w →
  (∀ c', is_Some (k (acc ++ w) rest c')) →
  is_Some (star_greedy ic a (w ++ rest) acc c k).
Proof.
  intros Hall. revert acc.
  induction Hall as [|ch w Hch _ IH]; intros acc Hk.
  - rewrite app_nil_r in Hk. simpl.
    destruct rest as [|ch rest]; simpl; [apply Hk|].
    destruct (atom_match ic a ch); [|apply Hk].
    apply orelse_is_Some. right. apply Hk.
  - simpl. rewrite Hch. apply orelse_is_Some. left. apply IH.
    intros c'. rewrite <- app_assoc. apply Hk.
Qed.

Lemma star_lazy_complete a w rest acc c k :
  Forall (λ ch, atom_match ic a ch = true) w →
  (∀ c', is_Some (k (acc ++ w) rest c')) →
  is_Some (star_lazy ic a (w ++ rest) acc c k).
Proof.
  intros Hall. revert acc.
  induction Hall as [|ch w Hch _ IH]; intros acc Hk.
  - rewrite app_nil_r in Hk. simpl.
    destruct rest as [|ch rest]; simpl; apply orelse_is_Some; left; apply Hk.
  - simpl. apply orelse_is_Some. right. rewrite Hch. apply IH.
    intros c'. rewrite <- app_assoc. apply Hk.
Qed.

(** The matcher finds a match whenever the expression has one that the
    rest of the pattern accepts. *)
Lemma rmatch_complete r w rest c c' :
  matches ic r w rest c c' →
  ∀ c0 k, (∀ c1, is_Some (k w rest c1)) →
          is_Some (rmatch ic r (w ++ rest) c0 k).
Proof.
  induction 1 as [a ch rest c Hch|l w rest c Hl
    |r1 r2 w1 w2 rest c c1 c2 _ IH1 _ IH2
    |r1 r2 w rest c c' _ IH|r1 r2 w rest c c' _ IH
    |r w rest c c' _ IH|r rest c
    |a w rest c Hne Hall|a w rest c Hall
    |n r w rest c c' _ IH|r w rest c c' _ IH]; intros c0 k Hk; simpl.
  - rewrite Hch. apply Hk.
  - apply (lits_match_complete _ _ rest) in Hl as [-> ->]. apply Hk.
  - rewrite <- app_assoc. apply IH1. intros c3. apply IH2.
    intros c4. apply Hk.
  - apply orelse_is_Some. left. by apply IH.
  - apply orelse_is_Some. right. by apply IH.
  - apply orelse_is_Some. left. by apply IH.
  - apply orelse_is_Some. right. apply Hk.
  - destruct Hall as [|ch w Hch Hall]; [done|]. simpl. rewrite Hch.
    by apply (star_greedy_complete a w rest [ch]).
  - by apply (star_lazy_complete a w rest []).
  - apply IH. intros c3. apply Hk.
  - destruct (rmatch ic r (w ++ rest) c0 (λ w0 s' c3, Some (w0, s', c3)))
      as [[[x y] c1]|] eqn:E.
    + apply Hk.
    + assert (Hs : is_Some (rmatch ic r (w ++ rest) c0
                              (λ w0 s' c3, Some (w0, s', c3)))) by
        (apply IH; eauto).
      rewrite E in Hs. by destruct Hs.
Qed.

Lemma match_at_sound r s must_advance w c :
  match_at ic r s must_advance = Some (w, c) →
  ∃ s', s = w ++ s' ∧ matches ic r w s' ∅ c ∧ (must_advance = true → w ≠ []).
Proof.
  unfold match_at. intros H.
  destruct (rmatch ic r s ∅ _) as [[[w0 s0] c0]|] eqn:E; [|done].
  injection H as -> ->.
  apply rmatch_sound in E as (w' & s' & c' & -> & Hm & E).
  destruct (must_advance && bool_decide (w' = [])) eqn:Ha; [done|].
  injection E as -> _ ->. exists s'. split; [done|]. split; [done|].
  intros ->. simpl in Ha. by apply bool_decide_eq_false in Ha.
Qed.

Lemma match_at_complete r w rest c must_advance :
  matches ic r w rest ∅ c →
  (must_advance = true → w ≠ []) →
  is_Some (match_at ic r (w ++ rest) must_advance).
Proof.
  intros Hm Hne. unfold match_at.
  match goal with |- context [rmatch ic r _ ∅ ?k] =>
    assert (Hs : is_Some (rmatch ic r (w ++ rest) ∅ k)) end.
  { apply (rmatch_complete _ _ _ _ _ Hm). intros c1.
    destruct must_advance; simpl; [|eauto].
    rewrite bool_decide_eq_false_2; [eauto | by apply Hne]. }
  destruct Hs as [[[w0 s0] c0] ->]. eauto.
Qed.

(** Every match reported by the scan is a match somewhere in the text. *)
Lemma scan_sound r s skip w c :
  (w, c) ∈ scan ic r s skip →
  ∃ pre post, s = pre ++ w ++ post ∧ matches ic r w post ∅ c.
Proof.
  assert (Hcons : ∀ (ch : ascii) s' w c,
    (∃ pre post, s' = pre ++ w ++ post ∧ matches ic r w post ∅ c) →
    ∃ pre post, ch :: s' = pre ++ w ++ post ∧ matches ic r w post ∅ c).
  { intros ch s' w0 c0 (pre & post & -> & Hm). by exists (ch :: pre), post. }
  assert (Hhere : ∀ s ma w c, match_at ic r s ma = Some (w, c) →
    ∃ pre post, s = pre ++ w ++ post ∧ matches ic r w post ∅ c).
  { intros s0 ma w0 c0 H. apply match_at_sound in H as (s' & -> & Hm & _).
    by exists [], s'. }
  revert skip. induction s as [|ch s IH]; intros skip H.
  - destruct skip; simpl in H; [|by apply elem_of_nil in H].
    destruct (match_at ic r [] false) as [[w0 c0]|] eqn:E;
      [|by apply elem_of_nil in H].
    apply elem_of_cons in H as [H|H].
    { injection H as -> ->. eauto. }
    destruct w0; [|by apply elem_of_nil in H].
    destruct (match_at ic r [] true) as [[w2 c2]|] eqn:E2;
      [|by apply elem_of_nil in H].
    apply elem_of_cons in H as [H|H]; [|by apply elem_of_nil in H].
    injection H as -> ->. eauto.
  - destruct skip; simpl in H; [|by apply Hcons, (IH skip)].
    destruct (match_at ic r (ch :: s) false) as [[w0 c0]|] eqn:E.
    + apply elem_of_cons in H as [H|H].
      { injection H as -> ->. eauto. }
      destruct w0 as [|x w0]; [|by apply Hcons, (IH _ H)].
      destruct (match_at ic r (ch :: s) true) as [[w2 c2]|] eqn:E2.
      * apply elem_of_cons in H as [H|H].
        { injection H as -> ->. eauto. }
        by apply Hcons, (IH _ H).
      * by apply Hcons, (IH _ H).
    + by apply Hcons, (IH _ H).
Qed.

(** The scan reports a match whenever the text has one. *)
Lemma scan_complete r text w :
  matches_in ic r text w → scan ic r text 0 ≠ [].
Proof.
  intros (pre & post & c & -> & Hm).
  induction pre as [|ch pre IH].
  - apply (match_at_complete _ _ _ _ false) in Hm as [[w0 c0] E]; [|done].
    simpl app. destruct (w ++ post); simpl; rewrite E; done.
  - simpl app. simpl scan.
    destruct (match_at ic r (ch :: pre ++ w ++ post) false) as [[w0 c0]|];
      [done | exact IH].
Qed.

Lemma scan_matches_in r text w c :
  (w, c) ∈ scan ic r text 0 → matches_in ic r text w.
Proof.
  intros H. apply scan_sound in H as (pre & post & -> & Hm).
  by exists pre, post, c.
Qed.
End MatcherProps.

(** The first match the scan reports starts at the leftmost position at
    which the expression matches at all. *)
Lemma scan_head_leftmost ic r s w c :
  head (scan ic r s 0) = Some (w, c) →
  ∃ pre post,
    s = pre ++ w ++ post ∧ matches ic r w post ∅ c ∧
    ∀ pre' w' post' c',
      s = pre' ++ w' ++ post' → matches ic r w' post' ∅ c' →
      length pre ≤ length pre'.
Proof.
  induction s as [|ch s IH]; simpl.
  - destruct (match_at ic r [] false) as [[w0 c0]|] eqn:E; [|done].
    intros [= -> ->]. apply match_at_sound in E as (s' & Hs & Hm & _).
    exists [], s'. split; [done|]. split; [done|]. intros; simpl; lia.
  - destruct (match_at ic r (ch :: s) false) as [[w0 c0]|] eqn:E.
    + intros [= -> ->]. apply match_at_sound in E as (s' & Hs & Hm & _).
      exists [], s'. split; [done|]. split; [done|]. intros; simpl; lia.
    + intros H. destruct (IH H) as (pre & post & -> & Hm & Hleft).
      exists (ch :: pre), post. split; [done|]. split; [done|].
      intros pre' w' post' c' Hs Hm'. destruct pre' as [|ch' pre'].
      * simpl in Hs. rewrite Hs in E.
        destruct (match_at_complete ic r w' post' c' false Hm') as [x Hx];
          [done|]. congruence.
      * injection Hs as _ Hs. simpl. apply le_n_S. by eapply Hleft.
Qed.

Section ScanSteps.
Variable ic : bool.

Lemma scan_skip r s n :
  n ≤ length s → scan ic r s n = scan ic r (drop n s) 0.
Proof.
  revert s. induction n as [|n IH]; intros s Hn; [by rewrite drop_0|].
  destruct s as [|ch s]; simpl in Hn; [lia|].
  simpl. apply IH. lia.
Qed.

(** The scan reports the match at the leftmost position where the
    expression matches and goes on after its end. *)
Lemma scan_cons_inv r s w c l :
  scan ic r s 0 = (w, c) :: l → w ≠ [] →
  ∃ pre post,
    s = pre ++ w ++ post ∧ matches ic r w post ∅ c ∧
    (∀ pre' w' post' c',
       s = pre' ++ w' ++ post' → matches ic r w' post' ∅ c' →
       length pre ≤ length pre') ∧
    l = scan ic r post 0.
Proof.
  induction s as [|ch s IH]; simpl.
  - destruct (match_at ic r [] false) as [[w0 c0]|] eqn:E; [|done].
    intros [= -> -> _] Hne. apply match_at_sound in E as (s' & Hs & _).
    symmetry in Hs. by apply app_eq_nil in Hs as [-> _].
  - destruct (match_at ic r (ch :: s) false) as [[w0 c0]|] eqn:E.
    + intros [= -> -> <-] Hne.
      apply match_at_sound in E as (s' & Hs & Hm & _).
      exists [], s'. split; [done|]. split; [done|].
      split; [intros; simpl; lia|].
      destruct w as [|x w]; [done|]. injection Hs as -> ->.
      simpl. rewrite scan_skip by (rewrite length_app; lia).
      by rewrite drop_app_length.
    + intros H Hne. destruct (IH H Hne) as (pre & post & -> & Hm & Hleft & ->).
      exists (ch :: pre), post. split; [done|]. split; [done|].
      split; [|done].
      intros pre' w' post' c' Hs Hm'. destruct pre' as [|ch' pre'].
      * simpl in Hs. rewrite Hs in E.
        destruct (match_at_complete ic r w' post' c' false Hm') as [x Hx];
          [done|]. congruence.
      * injection Hs as _ Hs. simpl. apply le_n_S. by eapply Hleft.
Qed.
End ScanSteps.

(** ** The three patterns of the extractor *)

Ltac invert_matches :=
  repeat match goal with
  | H : matches _ (Seq _ _) _ _ _ _ |- _ => inversion H; subst; clear H
  | H : matches _ (Atom _) _ _ _ _ |- _ => inversion H; subst; clear H
  | H : matches _ (Plus _) _ _ _ _ |- _ => inversion H; subst; clear H
  | H : matches _ (LazyStar _) _ _ _ _ |- _ => inversion H; subst; clear H
  | H : matches _ (Group _ _) _ _ _ _ |- _ => inversion H; subst; clear H
  | H : matches _ (Opt _) _ _ _ _ |- _ => inversion H; subst; clear H
  | H : matches _ (Ahead _) _ _ _ _ |- _ => inversion H; subst; clear H
  | H : matches _ (Lits _) _ _ _ _ |- _ => inversion H; subst; clear H
  end.

(** Without [re.IGNORECASE] a run of literals matches itself only. *)
Lemma lits_eq_exact l w : lits_eq false l w ↔ w = l.
Proof.
  split.
  - induction 1 as [|a b l w Hab _ IH]; [done|]. subst.
    simpl in Hab. apply N.eqb_eq, code_inj in Hab. by subst.
  - intros ->. unfold lits_eq. induction l as [|a l IH]; constructor; [|done].
    simpl. apply N.eqb_refl.
Qed.

(** An alternation of literal words matches what one of the words matches
    and leaves the groups alone. *)
Lemma alts_spec ic w ws x rest c c' :
  matches ic (alts w ws) x rest c c' ↔
  c' = c ∧ ∃ l, l ∈ w :: ws ∧ lits_eq ic l x.
Proof.
  revert w. induction ws as [|w' ws IH]; intros w; simpl.
  - split.
    + intros H. inversion H; subst. split; [done|].
      exists w. split; [left | done].
    + intros [-> (l & Hl & Heq)]. apply list_elem_of_singleton in Hl as ->.
      by constructor.
  - split.
    + intros H. inversion H as [| | |? ? ? ? ? ? H1|? ? ? ? ? ? H1| | | | | |];
        subst.
      * inversion H1; subst. split; [done|]. exists w. split; [left | done].
      * apply IH in H1 as [-> (l & Hl & Heq)]. split; [done|].
        exists l. split; [by right | done].
    + intros [-> (l & Hl & Heq)]. apply elem_of_cons in Hl as [->|Hl].
      * apply M_alt_l. by constructor.
      * apply M_alt_r, IH. eauto.
Qed.

Lemma upper_set_match c : atom_match false (ASet [upper_letters]) c = is_upper c.
Proof. unfold atom_match, is_upper. simpl. by rewrite !orb_false_r. Qed.

Lemma letter_set_match c :
  atom_match false (ASet [lower_letters; upper_letters]) c = is_letter c.
Proof. unfold atom_match, is_letter. simpl. by rewrite !orb_false_r. Qed.

(** What the fund pattern matches: exactly the fund phrases, each captured
    whole as group 1. *)
Lemma fund_regex_spec w rest c c' :
  matches false fund_regex w rest c c' ↔ fund_phrase w ∧ c' = <[1 := w]> c.
Proof.
  unfold fund_regex. split.
  - intros H. invert_matches.
    match goal with H : matches _ (Alt _ _) _ _ _ _ |- _ =>
      apply (alts_spec false (txt "Capital") (tail fund_suffixes)) in H
        as [-> (l & Hl & Heq)] end.
    apply lits_eq_exact in Heq as ->.
    split; [|done].
    match goal with
    | H1 : atom_match false (ASet [upper_letters]) ?u = true,
      H2 : Forall _ ?ls, H3 : atom_match false ASpace ?sp = true |- _ =>
        exists (u :: ls), sp, l; rewrite upper_set_match in H1
    end.
    split; [reflexivity|]. split; [|split; [done|done]].
    eexists _, _. split; [done|]. split; [done|]. split; [done|].
    eapply Forall_impl; [eassumption|].
    intros x; cbv beta. by rewrite letter_set_match.
  - intros [(u & sp & suffix & -> & (ch & cs & -> & Hup & Hne & Hall) & Hsp & Hin)
             ->].
    apply M_group.
    change ((ch :: cs) ++ sp :: suffix) with ([ch] ++ cs ++ [sp] ++ suffix).
    eapply M_seq; [constructor; by rewrite upper_set_match|].
    eapply M_seq.
    { apply M_plus; [done|]. eapply Forall_impl; [eassumption|].
      intros x; cbv beta. by rewrite letter_set_match. }
    eapply M_seq; [by constructor|].
    apply alts_spec. split; [done|]. exists suffix. split; [done|].
    by apply lits_eq_exact.
Qed.

Lemma amount_chars_match c : atom_match false amount_chars c = is_amount_char c.
Proof. unfold atom_match, is_amount_char. simpl. by rewrite orb_false_r, orb_assoc. Qed.

Lemma dollar_match c : atom_match false dollar c = true ↔ c = "$"%char.
Proof.
  unfold atom_match, dollar, same_char. rewrite N.eqb_eq. split.
  - apply code_inj.
  - by intros ->.
Qed.

(** What the fund-size pattern matches: an amount with its unit where
    "fund" follows on the line; group 1 is the unit alone. *)
Lemma fund_size_regex_spec m post c c' :
  matches false fund_size_regex m post c c' ↔
  ∃ u, amount_with_unit m u ∧ fund_follows post ∧ c' = <[1 := u]> c.
Proof.
  unfold fund_size_regex. split.
  - intros H. invert_matches;
      match goal with H : matches _ (Alt _ _) _ _ _ _ |- _ =>
        apply (alts_spec false (txt "million") (tail unit_words)) in H
          as [-> (u & Hu & Heq)] end;
      apply lits_eq_exact in Heq as ->;
      match goal with H : lits_eq false _ _ |- _ =>
        apply lits_eq_exact in H as -> end;
      match goal with H : atom_match false dollar _ = true |- _ =>
        apply dollar_match in H as -> end;
      match goal with H : Forall _ ?ds, H' : ?ds ≠ [] |- _ =>
        exists u; (split; [|split; [|done]]);
        [ eexists ds, _; rewrite app_nil_r;
          (split; [reflexivity|]); (split; [done|]);
          (split; [eapply Forall_impl; [exact H|];
                   intros x; cbv beta; by rewrite amount_chars_match|]);
          (split; [|done])
        | eexists _, _; rewrite <- app_assoc; split; [reflexivity | done] ]
      end.
    + right. eauto.
    + by left.
  - intros (u & (digits & gap & -> & Hne & Hdig & Hgap & Hu) &
            (far & post' & -> & Hfar) & ->).
    change ("$"%char :: digits ++ gap ++ u)
      with (["$"%char] ++ digits ++ gap ++ u).
    eapply M_seq; [constructor; by apply dollar_match|].
    eapply M_seq.
    { apply M_plus; [done|]. eapply Forall_impl; [exact Hdig|].
      intros x; cbv beta. by rewrite amount_chars_match. }
    rewrite <- (app_nil_r (gap ++ u)).
    eapply M_seq.
    + eapply M_seq.
      * destruct Hgap as [->|(sp & -> & Hsp)].
        -- apply M_opt_none.
        -- apply M_opt_some. by constructor.
      * apply M_group, alts_spec. split; [done|]. exists u. split; [done|].
        by apply lits_eq_exact.
    + rewrite app_assoc. apply M_ahead.
      eapply M_seq; [by apply M_lazy|]. constructor. by apply lits_eq_exact.
Qed.

Lemma unit_word_is_no_amount m u : amount_with_unit m u → u ≠ m.
Proof.
  intros (digits & gap & Hm & _ & _ & _ & Hu) ->. rewrite Hm in Hu at 1.
  apply list_elem_of_In in Hu. simpl in Hu.
  destruct Hu as [Hu|[Hu|[Hu|[Hu|[]]]]]; discriminate Hu.
Qed.

(** Group 2 of the ticket pattern takes part in every match. *)
Lemma ticket_regex_group w rest c c' :
  matches true ticket_regex w rest c c' → is_Some (c' !! 2).
Proof.
  unfold ticket_regex. intros H. invert_matches;
    rewrite lookup_insert_eq; eauto.
Qed.

Lemma upper_is_letter c : is_upper c = true → is_letter c = true.
Proof. unfold is_upper, is_letter. intros ->. apply orb_true_r. Qed.

Lemma whitespace_is_no_letter c : is_whitespace c = true → is_letter c = false.
Proof.
  revert c.
  assert (H : ∀ c, implb (is_whitespace c) (negb (is_letter c)) = true)
    by (apply ascii_all; vm_compute; reflexivity).
  intros c Hc. specialize (H c). rewrite Hc in H. by apply negb_true_iff.
Qed.

(** A run of letters that ends before a character that is no letter is
    determined by the text it begins. *)
Lemma letters_run w w' sp sp' x x' :
  Forall (λ c, is_letter c = true) w → Forall (λ c, is_letter c = true) w' →
  is_letter sp = false → is_letter sp' = false →
  w ++ sp :: x = w' ++ sp' :: x' → w = w' ∧ sp = sp' ∧ x = x'.
Proof.
  intros Hw. revert w'. induction Hw as [|c w Hc _ IH]; intros w' Hw' Hsp Hsp' H.
  - destruct Hw' as [|c' w' Hc' _]; simpl in H.
    + by injection H as -> ->.
    + injection H as -> _. congruence.
  - destruct Hw' as [|c' w' Hc' Hw']; simpl in H.
    + injection H as -> _. congruence.
    + injection H as -> H. destruct (IH w' Hw' Hsp Hsp' H) as (-> & -> & ->).
      done.
Qed.

Lemma fund_suffix_unique s s' r r' :
  s ∈ fund_suffixes → s' ∈ fund_suffixes → s ++ r = s' ++ r' → s = s'.
Proof.
  intros Hs Hs' H. apply list_elem_of_In in Hs, Hs'. simpl in Hs, Hs'.
  destruct Hs as [<-|[<-|[<-|[<-|[<-|[<-|[<-|[]]]]]]]];
    destruct Hs' as [<-|[<-|[<-|[<-|[<-|[<-|[<-|[]]]]]]]];
    (reflexivity || discriminate H).
Qed.

(** At most one fund phrase begins a given text. *)
Lemma fund_phrase_unique p q r r' :
  fund_phrase p → fund_phrase q → p ++ r = q ++ r' → p = q.
Proof.
  intros (w & sp & suf & -> & (c & cs & -> & Hc & _ & Hcs) & Hsp & Hsuf)
         (w' & sp' & suf' & -> & (c' & cs' & -> & Hc' & _ & Hcs') & Hsp' & Hsuf') H.
  rewrite <- !app_assoc in H. simpl in H.
  change (c :: cs ++ sp :: suf ++ r) with ((c :: cs) ++ sp :: suf ++ r) in H.
  change (c' :: cs' ++ sp' :: suf' ++ r') with ((c' :: cs') ++ sp' :: suf' ++ r') in H.
  apply letters_run in H as (Hw & -> & H);
    [| constructor; [by apply upper_is_letter | done]
     | constructor; [by apply upper_is_letter | done]
     | by apply whitespace_is_no_letter | by apply whitespace_is_no_letter].
  rewrite Hw. by rewrite (fund_suffix_unique suf suf' r r').
Qed.

Lemma fund_phrase_nonempty p : fund_phrase p → p ≠ [].
Proof. intros (w & sp & suf & -> & _). by destruct w. Qed.

(** ** The extractor *)

Lemma keywords_in_spec vocabulary text :
  selection vocabulary text (keywords_in vocabulary text).
Proof.
  unfold selection, keywords_in. split.
  - induction vocabulary as [|k ks IH]; simpl; [constructor|].
    destruct (py_in _ _); [by constructor | by apply sublist_cons].
  - intros k. by rewrite !list_elem_of_In, filter_In, py_in_spec.
Qed.

Lemma keywords_in_none vocabulary text :
  (∀ k, k ∈ vocabulary → ¬ occurs_in (py_lower k) (py_lower text)) →
  keywords_in vocabulary text = [].
Proof.
  intros Hno. destruct (keywords_in_spec vocabulary text) as [_ Hsel].
  destruct (keywords_in vocabulary text) as [|k ks]; [done|].
  destruct (proj1 (Hsel k)) as [Hk Hocc]; [left|]. by destruct (Hno k).
Qed.

Lemma advance_clock_0 w : advance_clock 0 w = w.
Proof. by destruct w. Qed.

Lemma advance_clock_S n w :
  advance_clock (S n) w = advance_clock n (set_clock_reads (S (clock_reads w)) w).
Proof.
  unfold advance_clock, set_clock_reads. simpl. f_equal. lia.
Qed.

Section ExtractorRun.
Variable now : nat → str.

(** The loop of the extractor emits [record_of] for each fund in turn,
    reading the clock once per record, and cannot raise. *)
Lemma extract_run text url w :
  extract_data_from_text now text url w =
    (Ok (zip_with (λ name k, record_of text url name (now k))
           (funds_of text)
           (seq (clock_reads w) (length (funds_of text)))),
     advance_clock (length (funds_of text)) w).
Proof.
  unfold extract_data_from_text, funds_of.
  generalize (list_of_set (findall1 fund_pattern text)). intros names.
  match goal with |- for_each _ _ ?b _ = _ => set (body := b) end.
  enough (H : ∀ acc w0, for_each names acc body w0 =
    (Ok (acc ++ zip_with (λ name k, record_of text url name (now k))
                  names (seq (clock_reads w0) (length names))),
     advance_clock (length names) w0)) by apply (H []).
  induction names as [|name names IH]; intros acc w0.
  - simpl. by rewrite app_nil_r, advance_clock_0.
  - cbn [for_each length seq zip_with]. rewrite advance_clock_S.
    unfold mbind at 1, M_bind at 1. unfold body at 1.
    assert (Hticket : ∀ w1 : World,
      (if truthy (findall ticket_keywords text)
       then m ← py_index (findall ticket_keywords text) 0;
            g ← py_index m 1; mret (Some g)
       else mret None) w1 = (Ok (first_ticket text), w1)).
    { intros w1. unfold first_ticket, findall.
      destruct (scan (ignorecase ticket_keywords) (expr ticket_keywords)
                  text 0) as [|m ms] eqn:E;
        change (scan true ticket_regex text 0) with
          (scan (ignorecase ticket_keywords) (expr ticket_keywords) text 0);
        rewrite E; reflexivity. }
    assert (Hsize : ∀ w1 : World,
      (if truthy (findall1 fund_size_pattern text)
       then g ← py_index (findall1 fund_size_pattern text) 0; mret (Some g)
       else mret None) w1 = (Ok (first_fund_size text), w1)).
    { intros w1. unfold first_fund_size, findall1.
      destruct (scan (ignorecase fund_size_pattern) (expr fund_size_pattern)
                  text 0) as [|m ms] eqn:E;
        change (scan false fund_size_regex text 0) with
          (scan (ignorecase fund_size_pattern) (expr fund_size_pattern)
             text 0);
        rewrite E; reflexivity. }
    unfold mbind at 1, M_bind at 1. rewrite Hticket.
    unfold mbind at 1, M_bind at 1. rewrite Hsize.
    unfold mbind at 1, M_bind at 1. unfold datetime_now at 1.
    unfold mret at 1, M_ret at 1.
    rewrite IH. by rewrite <- app_assoc.
Qed.

Lemma records_funds text url names start :
  map fund (zip_with (λ name k, record_of text url name (now k))
              names (seq start (length names))) = names.
Proof.
  revert start. induction names as [|name names IH]; intros start; simpl;
    [done | by rewrite IH].
Qed.

Lemma records_shape text url names ks r :
  r ∈ zip_with (λ name k, record_of text url name (now k)) names ks →
  ∃ name stamp, name ∈ names ∧ r = record_of text url name stamp.
Proof.
  revert ks. induction names as [|name names IH]; intros ks Hr.
  - by apply elem_of_nil in Hr.
  - destruct ks as [|k ks]; [by apply elem_of_nil in Hr|].
    simpl in Hr. apply elem_of_cons in Hr as [-> | Hr].
    + exists name, (now k). split; [left | done].
    + destruct (IH _ Hr) as (name' & stamp & Hin & ->).
      exists name', stamp. split; [by right | done].
Qed.
End ExtractorRun.

Lemma funds_of_distinct text :
  funds_of text ≡ₚ remove_dups (findall1 fund_pattern text).
Proof.
  unfold funds_of, list_of_set. apply NoDup_Permutation.
  - apply NoDup_elements.
  - apply NoDup_remove_dups.
  - intros x. by rewrite elem_of_elements, elem_of_list_to_set,
      elem_of_remove_dups.
Qed.

Lemma funds_of_elem text name :
  name ∈ funds_of text ↔ name ∈ findall1 fund_pattern text.
Proof.
  unfold funds_of, list_of_set.
  by rewrite elem_of_elements, elem_of_list_to_set.
Qed.

Lemma funds_of_nonempty text :
  findall1 fund_pattern text ≠ [] → funds_of text ≠ [].
Proof.
  intros Hne Hnil. destruct (findall1 fund_pattern text) as [|x l] eqn:E;
    [done|].
  assert (Hx : x ∈ funds_of text) by (apply funds_of_elem; rewrite E; left).
  rewrite Hnil in Hx. by apply elem_of_nil in Hx.
Qed.

(** The fund names found in a text are fund phrases that occur in it. *)
Lemma findall_fund_sound text name :
  name ∈ findall1 fund_pattern text → fund_phrase name ∧ occurs_in name text.
Proof.
  unfold findall1. intros H.
  apply list_elem_of_fmap in H as ([w c] & -> & H).
  apply scan_sound in H as (pre & post & -> & Hm).
  apply fund_regex_spec in Hm as [Hp ->]. simpl.
  unfold group_text. rewrite lookup_insert_eq. simpl.
  split; [done | by exists pre, post].
Qed.

(** A text in which a fund phrase occurs yields at least one fund name. *)
Lemma findall_fund_complete text p :
  fund_phrase p → occurs_in p text → findall1 fund_pattern text ≠ [].
Proof.
  intros Hp (pre & post & ->). unfold findall1.
  assert (Hs : scan false fund_regex (pre ++ p ++ post) 0 ≠ []).
  { apply (scan_complete _ _ _ p). exists pre, post, (<[1 := p]> ∅).
    split; [done|]. by apply fund_regex_spec. }
  simpl. destruct (scan false fund_regex (pre ++ p ++ post) 0); done.
Qed.

(** C1. The extractor returns one record per distinct fund-name match:
    the fund names of the records are the distinct matches of the fund
    pattern, so their number is the number of distinct matches; all records
    of the article carry the same ticket size, fund size, sectors,
    geographies and stage; a text without a match yields no record. *)
Theorem extract_one_record_per_fund (now : nat → str) (text url : str) (w : World) :
  ∃ recs w',
    extract_data_from_text now text url w = (Ok recs, w') ∧
    map fund recs ≡ₚ remove_dups (findall1 fund_pattern text) ∧
    length recs = length (remove_dups (findall1 fund_pattern text)) ∧
    (∀ r r', r ∈ recs → r' ∈ recs → same_article_values r r') ∧
    (findall1 fund_pattern text = [] → recs = []).
Proof.
  eexists _, _. split; [apply extract_run|].
  assert (Hperm : map fund
    (zip_with (λ name k, record_of text url name (now k)) (funds_of text)
       (seq (clock_reads w) (length (funds_of text))))
    ≡ₚ remove_dups (findall1 fund_pattern text)).
  { rewrite records_funds. apply funds_of_distinct. }
  split; [exact Hperm|]. split; [|split].
  - rewrite <- (length_map fund). by rewrite Hperm.
  - intros r r' Hr Hr'.
    apply records_shape in Hr as (n1 & s1 & _ & ->).
    apply records_shape in Hr' as (n2 & s2 & _ & ->).
    by repeat split.
  - intros Hnone. unfold funds_of, list_of_set. rewrite Hnone. simpl.
    by rewrite elements_empty.
Qed.

(** C2.  The fund size of a record is never the dollar amount.  The field
    comes from the leftmost fund-size mention of the text (an amount with a
    unit word, with "fund" later on the line) and is absent exactly when
    there is none, but what is stored is the pattern's only capturing
    group, the unit word of the mention: "million", "billion", "M" or "B".
    For "Acme Capital raised $100 million for its new fund" the field is
    "million", where the amount is "$100 million". *)
Theorem extract_fund_size_is_the_unit_word :
  (∀ (now : nat → str) (text url : str) (w : World),
     ∃ recs w',
       extract_data_from_text now text url w = (Ok recs, w') ∧
       ∀ r, r ∈ recs →
         match fund_size r with
         | None =>
             ∀ pre m post u,
               text = pre ++ m ++ post → amount_with_unit m u →
               ¬ fund_follows post
         | Some v =>
             ∃ pre m post,
               text = pre ++ m ++ post ∧
               amount_with_unit m v ∧ fund_follows post ∧
               v ∈ unit_words ∧ v ≠ m ∧
               ∀ pre' m' post' u',
                 text = pre' ++ m' ++ post' → amount_with_unit m' u' →
                 fund_follows post' → length pre ≤ length pre'
         end) ∧
  (∃ r w',
     extract_data_from_text fixed_clock
       (txt "Acme Capital raised $100 million for its new fund")
       (txt "http://example.org/a") fresh_world = (Ok [r], w') ∧
     fund r = txt "Acme Capital" ∧
     fund_size r = Some (txt "million") ∧
     amount_with_unit (txt "$100 million") (txt "million") ∧
     occurs_in (txt "$100 million")
       (txt "Acme Capital raised $100 million for its new fund")).
Proof.
  split.
  - intros now text url w. eexists _, _. split; [apply extract_run|].
    intros r Hr. apply records_shape in Hr as (n & s & _ & ->).
    unfold record_of; cbn [fund_size]. unfold first_fund_size.
    destruct (head (scan false fund_size_regex text 0)) as [[m c]|] eqn:E;
      simpl.
    + apply scan_head_leftmost in E as (pre & post & Htext & Hm & Hleft).
      apply fund_size_regex_spec in Hm as (u & Hamount & Hfund & ->).
      unfold group_text. rewrite lookup_insert_eq. simpl.
      exists pre, m, post. split; [done|]. split; [done|]. split; [done|].
      split; [by destruct Hamount as (? & ? & _ & _ & _ & _ & ?)|].
      split; [by apply unit_word_is_no_amount|].
      intros pre' m' post' u' Htext' Hamount' Hfund'.
      apply (Hleft pre' m' post' (<[1 := u']> ∅) Htext').
      apply fund_size_regex_spec. eauto.
    + intros pre m post u Htext Hamount Hfund.
      assert (Hs : scan false fund_size_regex text 0 ≠ []).
      { apply (scan_complete _ _ _ m). exists pre, post, (<[1 := u]> ∅).
        split; [done|]. apply fund_size_regex_spec. eauto. }
      by destruct (scan false fund_size_regex text 0).
  - eexists _, _. split; [vm_compute; reflexivity|].
    split; [done|]. split; [done|]. split.
    + exists (txt "100"), (txt " "). split; [reflexivity|]. split; [done|].
      split; [by repeat constructor|]. split; [right; by exists " "%char|].
      apply list_elem_of_In. simpl. auto.
    + by exists (txt "Acme Capital raised "), (txt " for its new fund").
Qed.

(** C3.  For every text the ticket size of every record is group 2 (the
    amount) of the match of the ticket pattern that starts leftmost in the
    text, and it is absent exactly when the pattern matches nowhere.  On
    the example of the specification that amount stops before "to": the
    separator of a range is a set of single characters, so the two letters
    of "to" do not join two amounts.  The record is the only one, with the
    fund, stage, sector and geography the example gives, and with the
    ticket size "$500,000". *)
Theorem extract_example_ticket_is_cut_at_to :
  (∀ (now : nat → str) (text url : str) (w : World),
     ∃ recs w',
       extract_data_from_text now text url w = (Ok recs, w') ∧
       ∀ r, r ∈ recs →
         match ticket_size r with
         | None => ∀ m, ¬ matches_in true ticket_regex text m
         | Some amount =>
             ∃ pre m post c,
               text = pre ++ m ++ post ∧
               matches true ticket_regex m post ∅ c ∧
               c !! 2 = Some amount ∧
               ∀ pre' m' post' c',
                 text = pre' ++ m' ++ post' →
                 matches true ticket_regex m' post' ∅ c' →
                 length pre ≤ length pre'
         end) ∧
  (∃ r w',
     extract_data_from_text fixed_clock
       (txt "Sequoia Capital writes cheques of $500,000 to $1 million in seed fintech startups in India")
       (txt "http://example.org/a") fresh_world = (Ok [r], w') ∧
     fund r = txt "Sequoia Capital" ∧
     ticket_size r = Some (txt "$500,000") ∧
     ticket_size r ≠ Some (txt "$500,000 to $1 million") ∧
     stage r = txt "seed" ∧
     sectors r = txt "fintech" ∧
     geographies r = txt "India").
Proof.
  split.
  - intros now text url w. eexists _, _. split; [apply extract_run|].
    intros r Hr. apply records_shape in Hr as (n & s & _ & ->).
    unfold record_of; cbn [ticket_size]. unfold first_ticket.
    destruct (head (scan true ticket_regex text 0)) as [[m c]|] eqn:E; simpl.
    + apply scan_head_leftmost in E as (pre & post & Htext & Hm & Hleft).
      exists pre, m, post, c. split; [done|]. split; [done|].
      split; [|done].
      destruct (ticket_regex_group _ _ _ _ Hm) as [g Hg].
      unfold group_text. by rewrite Hg.
    + intros m Hm. apply scan_complete in Hm.
      by destruct (scan true ticket_regex text 0).
  - eexists _, _. split; [vm_compute; reflexivity|]. by repeat split.
Qed.

(** [re.findall] with the fund pattern is the left-to-right scan for fund
    phrases. *)
Lemma findall_fund_scan text :
  leftmost_phrases text (findall1 fund_pattern text).
Proof.
  unfold findall1. simpl ignorecase. simpl expr.
  remember (length text) as n eqn:Hn.
  revert text Hn. induction (lt_wf n) as [n _ IH]. intros text ->.
  destruct (scan false fund_regex text 0) as [|[m c] l] eqn:E.
  - apply LP_none. intros p Hp (pre & post & ->).
    assert (Hs : scan false fund_regex (pre ++ p ++ post) 0 ≠ []).
    { apply (scan_complete _ _ _ p). exists pre, post, (<[1 := p]> ∅).
      split; [done|]. by apply fund_regex_spec. }
    done.
  - assert (Hin : (m, c) ∈ scan false fund_regex text 0) by (rewrite E; left).
    apply scan_sound in Hin as (pre0 & post0 & _ & Hm0).
    apply fund_regex_spec in Hm0 as [Hphrase0 _].
    apply scan_cons_inv in E as (pre & post & -> & Hm & Hleft & ->);
      [|by apply fund_phrase_nonempty].
    apply fund_regex_spec in Hm as [Hphrase ->].
    simpl. unfold group_text at 1. rewrite lookup_insert_eq. simpl.
    eapply LP_next; [reflexivity | done | |].
    + intros pre' p post' Htext Hp.
      apply (Hleft pre' p post' (<[1 := p]> ∅) Htext).
      by apply fund_regex_spec.
    + apply (IH (length post)); [|done].
      rewrite !length_app. apply fund_phrase_nonempty in Hphrase.
      destruct m; [done|]. simpl. lia.
Qed.

(** The scan determines the list of names. *)
Lemma leftmost_phrases_unique text ms ms' :
  leftmost_phrases text ms → leftmost_phrases text ms' → ms = ms'.
Proof.
  intros H. revert ms'.
  induction H as [text Hnone | text pre m post ms Htext Hm Hleft _ IH];
    intros ms' H'.
  - destruct H' as [|text pre' m' post' ms' -> Hm' _ _]; [done|].
    destruct (Hnone m' Hm'). by exists pre', post'.
  - destruct H' as [text Hnone | text pre' m' post' ms' Htext' Hm' Hleft' Hrest'].
    + destruct (Hnone m Hm). by exists pre, post.
    + assert (Hlen : length pre = length pre').
      { apply Nat.le_antisymm; [by eapply Hleft | by eapply Hleft']. }
      rewrite Htext in Htext'.
      apply app_inj_1 in Htext' as [-> Htext']; [|done].
      pose proof (fund_phrase_unique m m' post post' Hm Hm' Htext') as ->.
      apply app_inv_head in Htext' as ->.
      f_equal. by apply IH.
Qed.

(** A fund phrase of the text is found, or it begins inside a phrase that
    is. *)
Lemma leftmost_phrases_cover text ms :
  leftmost_phrases text ms →
  ∀ pre p post,
    text = pre ++ p ++ post → fund_phrase p →
    ∃ pre1 m post1,
      m ∈ ms ∧ text = pre1 ++ m ++ post1 ∧
      length pre1 ≤ length pre < length pre1 + length m ∧
      (length pre1 = length pre → m = p).
Proof.
  induction 1 as [text Hnone | text pre0 m post0 ms Htext Hm Hleft _ IH];
    intros pre p post Hp Hphrase.
  - destruct (Hnone p Hphrase). by exists pre, post.
  - pose proof (Hleft pre p post Hp Hphrase) as Hle.
    destruct (decide (length pre < length pre0 + length m)) as [Hin|Hout].
    + exists pre0, m, post0. split; [left|]. split; [done|]. split; [lia|].
      intros Hlen. rewrite Htext in Hp.
      apply app_inj_1 in Hp as [_ Hp]; [|done].
      by apply (fund_phrase_unique m p post0 post).
    + rewrite Htext, (app_assoc pre0 m post0) in Hp.
      apply app_eq_inv in Hp as [(k & Hk & Hpost)|(k & Hk & Hpost)].
      * apply (f_equal length) in Hk. rewrite !length_app in Hk.
        assert (k = []) as -> by (apply nil_length_inv; lia).
        destruct (IH [] p post) as (pre1 & m1 & post1 & Hin1 & -> & Hpos & Heq);
          [by rewrite Hpost | done |].
        exists ((pre0 ++ m) ++ pre1), m1, post1.
        split; [by right|]. split; [by rewrite Htext, <- !app_assoc|].
        rewrite !length_app in *. simpl in *. split; [lia|].
        intros Hlen. apply Heq. lia.
      * destruct (IH k p post) as (pre1 & m1 & post1 & Hin1 & -> & Hpos & Heq);
          [done | done |].
        exists ((pre0 ++ m) ++ pre1), m1, post1.
        split; [by right|]. split; [by rewrite Htext, <- !app_assoc|].
        rewrite Hk, !length_app in *. split; [lia|].
        intros Hlen. apply Heq. lia.
Qed.

(** C4, as stated, fails: in "Alpha Capital Partners" the phrase
    "Capital Partners" is a capitalized word followed by a suffix word, but
    the scan has consumed "Capital" with the match before it and does not
    report it. *)
Lemma fund_phrase_inside_a_match_is_missed :
  ∃ recs w',
    extract_data_from_text fixed_clock (txt "Alpha Capital Partners")
      (txt "http://example.org/a") fresh_world = (Ok recs, w') ∧
    map fund recs = [txt "Alpha Capital"] ∧
    fund_phrase (txt "Capital Partners") ∧
    occurs_in (txt "Capital Partners") (txt "Alpha Capital Partners") ∧
    txt "Capital Partners" ∉ map fund recs.
Proof.
  eexists _, _. split; [vm_compute; reflexivity|].
  split; [reflexivity|]. split; [|split].
  - exists (txt "Capital"), " "%char, (txt "Partners").
    split; [reflexivity|]. split; [|split; [reflexivity|]].
    + exists "C"%char, (txt "apital"). split; [reflexivity|].
      split; [reflexivity|]. split; [done|]. by repeat constructor.
    + apply list_elem_of_In. simpl. auto.
  - by exists (txt "Alpha "), [].
  - simpl. intros H. apply list_elem_of_singleton in H. discriminate H.
Qed.

(** C4, amended.  The fund names among the records are, collapsed to a
    set, the names a left-to-right scan of non-overlapping matches finds:
    the fund phrase (a capital letter, one or more letters, one whitespace
    character and a suffix word) at the leftmost position where one begins,
    and then those found in the same way after its end; the scan determines
    the list.  So every name is a fund phrase that occurs in the text, no
    name appears twice among the records, and a fund phrase of the text is
    among the names unless it begins inside a match that begins before it:
    every occurrence of a fund phrase begins within an occurrence of a name,
    and is that name when the two begin at the same place. *)
Theorem extract_fund_names (now : nat → str) (text url : str) (w : World) :
  ∃ recs w' found,
    extract_data_from_text now text url w = (Ok recs, w') ∧
    leftmost_phrases text found ∧
    (∀ found', leftmost_phrases text found' → found' = found) ∧
    map fund recs ≡ₚ remove_dups found ∧
    NoDup (map fund recs) ∧
    (∀ name, name ∈ map fund recs → fund_phrase name ∧ occurs_in name text) ∧
    (∀ pre p post,
       text = pre ++ p ++ post → fund_phrase p →
       ∃ pre1 m post1,
         m ∈ map fund recs ∧ text = pre1 ++ m ++ post1 ∧
         length pre1 ≤ length pre < length pre1 + length m ∧
         (length pre1 = length pre → m = p)) ∧
    ((∃ p, fund_phrase p ∧ occurs_in p text) →
     ∃ name pre post,
       name ∈ map fund recs ∧ text = pre ++ name ++ post ∧
       ∀ pre' p' post',
         text = pre' ++ p' ++ post' → fund_phrase p' →
         length pre ≤ length pre').
Proof.
  exists (zip_with (λ name k, record_of text url name (now k))
            (funds_of text) (seq (clock_reads w) (length (funds_of text)))),
    (advance_clock (length (funds_of text)) w), (findall1 fund_pattern text).
  split; [apply extract_run|]. rewrite records_funds.
  pose proof (findall_fund_scan text) as Hscan.
  split; [exact Hscan|].
  split; [intros found' H'; exact (leftmost_phrases_unique _ _ _ H' Hscan)|].
  split; [apply funds_of_distinct|].
  split; [unfold funds_of, list_of_set; apply NoDup_elements|]. split; [|split].
  - intros name H. by apply findall_fund_sound, funds_of_elem.
  - intros pre p post Htext Hp.
    destruct (leftmost_phrases_cover _ _ Hscan pre p post Htext Hp)
      as (pre1 & m & post1 & Hin & Hm & Hpos & Heq).
    exists pre1, m, post1. split; [by apply funds_of_elem | done].
  - intros (p & Hp & pre0 & post0 & Htext).
    assert (Hs : scan false fund_regex text 0 ≠ []).
    { apply (scan_complete _ _ _ p). exists pre0, post0, (<[1 := p]> ∅).
      split; [done|]. by apply fund_regex_spec. }
    destruct (scan false fund_regex text 0) as [|[m c] l] eqn:E; [done|].
    assert (Hhead : head (scan false fund_regex text 0) = Some (m, c))
      by (by rewrite E).
    apply scan_head_leftmost in Hhead as (pre & post & Hm & Hmatch & Hleft).
    apply fund_regex_spec in Hmatch as [Hphrase ->].
    exists m, pre, post. split; [|split; [done|]].
    + apply funds_of_elem. unfold findall1. simpl. rewrite E. simpl.
      unfold group_text. rewrite lookup_insert_eq. left.
    + intros pre' p' post' Htext' Hp'.
      apply (Hleft pre' p' post' (<[1 := p']> ∅) Htext').
      by apply fund_regex_spec.
Qed.

(** C5. Stage, sectors and geographies of every record are the
    comma-and-space joins of the keywords of the three vocabularies whose
    lowercase form occurs in the lowercased text, in vocabulary order; the
    same strings for every record of the article. *)
Theorem extract_keyword_fields (now : nat → str) (text url : str) (w : World) :
  ∃ recs w' stages sects geos,
    extract_data_from_text now text url w = (Ok recs, w') ∧
    selection stage_keywords text stages ∧
    selection sector_keywords text sects ∧
    selection geography_keywords text geos ∧
    ∀ r, r ∈ recs →
      stage r = join (txt ", ") stages ∧
      sectors r = join (txt ", ") sects ∧
      geographies r = join (txt ", ") geos.
Proof.
  eexists _, _, _, _, _. split; [apply extract_run|].
  split; [apply keywords_in_spec|]. split; [apply keywords_in_spec|].
  split; [apply keywords_in_spec|].
  intros r Hr. by apply records_shape in Hr as (n & s & _ & ->).
Qed.

(** C6.  The extractor returns for every text and address, and a pattern
    or keyword that does not match shows as [None] (ticket size, fund size)
    or as the empty string (sectors, geographies, stage). *)
Theorem extract_never_raises (now : nat → str) (text url : str) (w : World) :
  ∃ recs w',
    extract_data_from_text now text url w = (Ok recs, w') ∧
    ∀ r, r ∈ recs →
      ((∀ m, ¬ matches_in true ticket_regex text m) → ticket_size r = None) ∧
      ((∀ m, ¬ matches_in false fund_size_regex text m) → fund_size r = None) ∧
      ((∀ k, k ∈ sector_keywords → ¬ occurs_in (py_lower k) (py_lower text)) →
       sectors r = []) ∧
      ((∀ k, k ∈ geography_keywords →
             ¬ occurs_in (py_lower k) (py_lower text)) →
       geographies r = []) ∧
      ((∀ k, k ∈ stage_keywords → ¬ occurs_in (py_lower k) (py_lower text)) →
       stage r = []).
Proof.
  eexists _, _. split; [apply extract_run|].
  intros r Hr. apply records_shape in Hr as (n & s & _ & ->).
  unfold record_of; cbn [ticket_size fund_size sectors geographies stage].
  split; [|split; [|split; [|split]]].
  - intros Hno. unfold first_ticket.
    destruct (head (scan true ticket_regex text 0)) as [[m c]|] eqn:E; [|done].
    apply head_elem_of, scan_matches_in in E. by destruct (Hno m).
  - intros Hno. unfold first_fund_size.
    destruct (head (scan false fund_size_regex text 0)) as [[m c]|] eqn:E;
      [|done].
    apply head_elem_of, scan_matches_in in E. by destruct (Hno m).
  - intros Hno. by rewrite keywords_in_none.
  - intros Hno. by rewrite keywords_in_none.
  - intros Hno. by rewrite keywords_in_none.
Qed.

(** X5.  Every record carries the address it was extracted from and one reading
    of the clock: the readings are consecutive, one per record, and the
    extractor touches nothing else in the world. *)
Theorem extract_sources_and_timestamps
    (now : nat → str) (text url : str) (w : World) :
  ∃ recs w',
    extract_data_from_text now text url w = (Ok recs, w') ∧
    Forall (λ r, source r = url) recs ∧
    map timestamp recs = map now (seq (clock_reads w) (length recs)) ∧
    w' = advance_clock (length recs) w.
Proof.
  eexists _, _. split; [apply extract_run|].
  assert (Hlen : ∀ names start,
    length (zip_with (λ name k, record_of text url name (now k)) names
              (seq start (length names))) = length names).
  { intros names start.
    by rewrite <- (length_map fund), records_funds. }
  split; [|split].
  - apply Forall_forall. intros r Hr.
    by apply records_shape in Hr as (n & s & _ & ->).
  - rewrite Hlen. generalize (clock_reads w).
    induction (funds_of text) as [|name names IH]; intros start; simpl;
      [done | by rewrite IH].
  - by rewrite Hlen.
Qed.

(** ** Keywords found inside other words *)

Lemma listed_of_elem kw ks : kw ∈ ks → listed kw (join (txt ", ") ks).
Proof.
  intros H. apply list_elem_of_split in H as (before & after & ->).
  by exists before, after.
Qed.

Lemma listed_occurs kw field : listed kw field → occurs_in kw field.
Proof.
  intros (before & after & ->). induction before as [|b before IH].
  - destruct after as [|a after].
    + exists [], []. simpl. by rewrite app_nil_r.
    + exists [], (txt ", " ++ join (txt ", ") (a :: after)). reflexivity.
  - destruct IH as (pre & post & IH).
    destruct (before ++ kw :: after) as [|y l] eqn:E.
    { by destruct before. }
    simpl app. rewrite E, join_cons_cons, IH.
    exists (b ++ txt ", " ++ pre), post. by rewrite <- !app_assoc.
Qed.

Lemma said_contains_ai text :
  occurs_in (txt "said") text ∨ occurs_in (txt "Thailand") text →
  occurs_in (py_lower (txt "AI")) (py_lower text).
Proof.
  intros [H|H]; apply occurs_in_lower in H;
    (eapply occurs_in_trans; [|exact H]).
  - by exists (txt "s"), (txt "d").
  - by exists (txt "th"), (txt "land").
Qed.

(** The geography "Asia" is listed only when "asia" occurs in the
    lowercased text. *)
Lemma asia_listed_only_if_present text :
  listed (txt "Asia") (join (txt ", ") (keywords_in geography_keywords text)) →
  occurs_in (txt "asia") (py_lower text).
Proof.
  intros Hl. apply listed_occurs in Hl.
  destruct (py_in (py_lower (txt "Asia")) (py_lower text)) eqn:Easia.
  { by apply py_in_spec in Easia. }
  assert (Esea : py_in (py_lower (txt "Southeast Asia")) (py_lower text) = false).
  { destruct (py_in (py_lower (txt "Southeast Asia")) (py_lower text)) eqn:E;
      [|done].
    apply py_in_spec in E. apply not_occurs_in in Easia. destruct Easia.
    eapply occurs_in_trans; [|exact E]. by exists (txt "southeast "), []. }
  revert Hl. unfold keywords_in, geography_keywords. cbn [List.filter].
  rewrite Easia, Esea.
  destruct (py_in (py_lower (txt "India")) (py_lower text));
    destruct (py_in (py_lower (txt "Singapore")) (py_lower text));
    destruct (py_in (py_lower (txt "Indonesia")) (py_lower text));
    intros Hl; apply py_in_spec in Hl; vm_compute in Hl; discriminate Hl.
Qed.

(** C10, as stated, fails for "Thailand": the lowercased word contains "ai"
    but not "asia", so the record gets no geography at all. *)
Lemma thailand_is_not_tagged_asia :
  ∃ r w',
    extract_data_from_text fixed_clock
      (txt "Acme Capital invests in Thailand")
      (txt "http://example.org/a") fresh_world = (Ok [r], w') ∧
    occurs_in (txt "Thailand") (txt "Acme Capital invests in Thailand") ∧
    geographies r = [] ∧
    ¬ listed (txt "Asia") (geographies r).
Proof.
  eexists _, _. split; [vm_compute; reflexivity|].
  split; [by exists (txt "Acme Capital invests in "), []|].
  split; [reflexivity|].
  intros H. apply listed_occurs in H as (pre & post & H).
  by destruct pre.
Qed.

(** C10, amended.  Keyword membership is a substring test on the lowercased
    text, so a term is tagged without being mentioned as a word: every text
    that contains "said" or "Thailand" has "AI" among the sectors of each of
    its records (and has a record when a fund phrase occurs in it).  The
    geography "Asia" is listed only when "asia" occurs in the lowercased
    text, which "Thailand" alone does not bring about. *)
Theorem substring_match_tags_ai (now : nat → str) (text url : str) (w : World) :
  occurs_in (txt "said") text ∨ occurs_in (txt "Thailand") text →
  ∃ recs w',
    extract_data_from_text now text url w = (Ok recs, w') ∧
    ((∃ p, fund_phrase p ∧ occurs_in p text) → recs ≠ []) ∧
    ∀ r, r ∈ recs →
      listed (txt "AI") (sectors r) ∧
      (listed (txt "Asia") (geographies r) →
       occurs_in (txt "asia") (py_lower text)).
Proof.
  intros Hocc. eexists _, _. split; [apply extract_run|]. split.
  - intros (p & Hp & Hin) Hnil.
    apply (f_equal (map fund)) in Hnil. rewrite records_funds in Hnil.
    by apply (funds_of_nonempty text (findall_fund_complete text p Hp Hin)).
  - intros r Hr. apply records_shape in Hr as (n & s & _ & ->).
    unfold record_of; cbn [sectors geographies]. split.
    + apply listed_of_elem, keywords_in_spec. split.
      * apply list_elem_of_In. simpl. auto 10.
      * by apply said_contains_ai.
    + apply asia_listed_only_if_present.
Qed.

(** The text "Acme Capital said no" names no sector, yet its one record is
    tagged "AI". *)
Lemma substring_match_tags_ai_witness :
  ∃ recs w',
    extract_data_from_text fixed_clock (txt "Acme Capital said no")
      (txt "http://example.org/a") fresh_world = (Ok recs, w') ∧
    ((∃ p, fund_phrase p ∧ occurs_in p (txt "Acme Capital said no")) →
     recs ≠ []) ∧
    ∀ r, r ∈ recs →
      listed (txt "AI") (sectors r) ∧
      (listed (txt "Asia") (geographies r) →
       occurs_in (txt "asia") (py_lower (txt "Acme Capital said no"))).
Proof.
  apply (substring_match_tags_ai fixed_clock (txt "Acme Capital said no")
           (txt "http://example.org/a") fresh_world).
  left. exists (txt "Acme Capital "), (txt " no"). reflexivity.
Defined.

(** "sustainability" is listed only when it occurs in the lowercased text:
    no other sector keyword contains it. *)
Lemma sustainability_listed text :
  listed (txt "sustainability")
    (join (txt ", ") (keywords_in sector_keywords text)) →
  occurs_in (txt "sustainability") (py_lower text).
Proof.
  intros Hl. apply listed_occurs in Hl.
  destruct (py_in (py_lower (txt "sustainability")) (py_lower text)) eqn:Es.
  { by apply py_in_spec in Es. }
  revert Hl. unfold keywords_in, sector_keywords. cbn [List.filter].
  rewrite Es.
  destruct (py_in (py_lower (txt "consumer tech")) (py_lower text));
    destruct (py_in (py_lower (txt "fintech")) (py_lower text));
    destruct (py_in (py_lower (txt "edtech")) (py_lower text));
    destruct (py_in (py_lower (txt "healthtech")) (py_lower text));
    destruct (py_in (py_lower (txt "AI")) (py_lower text));
    destruct (py_in (py_lower (txt "crypto")) (py_lower text));
    intros Hl; apply py_in_spec in Hl; vm_compute in Hl; discriminate Hl.
Qed.

Lemma southeast_asia_listed text :
  listed (txt "Southeast Asia")
    (join (txt ", ") (keywords_in geography_keywords text)) →
  occurs_in (txt "southeast asia") (py_lower text).
Proof.
  intros Hl. apply listed_occurs in Hl.
  destruct (py_in (py_lower (txt "Southeast Asia")) (py_lower text)) eqn:Es.
  { by apply py_in_spec in Es. }
  revert Hl. unfold keywords_in, geography_keywords. cbn [List.filter].
  rewrite Es.
  destruct (py_in (py_lower (txt "India")) (py_lower text));
    destruct (py_in (py_lower (txt "Singapore")) (py_lower text));
    destruct (py_in (py_lower (txt "Indonesia")) (py_lower text));
    destruct (py_in (py_lower (txt "Asia")) (py_lower text));
    intros Hl; apply py_in_spec in Hl; vm_compute in Hl; discriminate Hl.
Qed.

(** X15.  Two keywords of the vocabularies contain another one:
    "sustainability" contains "ai" and "Southeast Asia" contains "asia".  So
    no record lists the sector "sustainability" without the sector "AI", and
    none lists the geography "Southeast Asia" without "Asia". *)
Theorem overlapping_keywords_are_listed_together
    (now : nat → str) (text url : str) (w : World) :
  ∃ recs w',
    extract_data_from_text now text url w = (Ok recs, w') ∧
    ∀ r, r ∈ recs →
      (listed (txt "sustainability") (sectors r) →
       listed (txt "AI") (sectors r)) ∧
      (listed (txt "Southeast Asia") (geographies r) →
       listed (txt "Asia") (geographies r)).
Proof.
  eexists _, _. split; [apply extract_run|].
  intros r Hr. apply records_shape in Hr as (n & s & _ & ->).
  unfold record_of; cbn [sectors geographies]. split; intros Hl.
  - apply sustainability_listed in Hl.
    apply listed_of_elem, keywords_in_spec. split.
    + apply list_elem_of_In. simpl. auto 10.
    + eapply occurs_in_trans; [|exact Hl].
      by exists (txt "sust"), (txt "nability").
  - apply southeast_asia_listed in Hl.
    apply listed_of_elem, keywords_in_spec. split.
    + apply list_elem_of_In. simpl. auto 10.
    + eapply occurs_in_trans; [|exact Hl]. by exists (txt "southeast "), [].
Qed.

(** ** Ranges written with "to" *)

Lemma amount_char_neutral c :
  atom_match true amount_chars c = true → neutral c = true.
Proof.
  revert c.
  assert (H : ∀ c, implb (atom_match true amount_chars c) (neutral c) = true)
    by (apply ascii_all; vm_compute; reflexivity).
  intros c Hc. specialize (H c). by rewrite Hc in H.
Qed.

Lemma space_neutral c : atom_match true ASpace c = true → neutral c = true.
Proof.
  revert c.
  assert (H : ∀ c, implb (atom_match true ASpace c) (neutral c) = true)
    by (apply ascii_all; vm_compute; reflexivity).
  intros c Hc. specialize (H c). by rewrite Hc in H.
Qed.

Lemma dollar_neutral c : atom_match true dollar c = true → neutral c = true.
Proof.
  revert c.
  assert (H : ∀ c, implb (atom_match true dollar c) (neutral c) = true)
    by (apply ascii_all; vm_compute; reflexivity).
  intros c Hc. specialize (H c). by rewrite Hc in H.
Qed.

Lemma lower_t c : to_lower c = "t"%char → is_t c = true.
Proof.
  revert c.
  assert (H : ∀ c, implb (bool_decide (to_lower c = "t"%char)) (is_t c) = true)
    by (apply ascii_all; vm_compute; reflexivity).
  intros c Hc. specialize (H c). by rewrite bool_decide_eq_true_2 in H.
Qed.

Lemma lower_o c : to_lower c = "o"%char → is_o c = true.
Proof.
  revert c.
  assert (H : ∀ c, implb (bool_decide (to_lower c = "o"%char)) (is_o c) = true)
    by (apply ascii_all; vm_compute; reflexivity).
  intros c Hc. specialize (H c). by rewrite bool_decide_eq_true_2 in H.
Qed.

Lemma run_to_None s : fold_left step_to s None = None.
Proof. by induction s. Qed.

(** A text the scanner gets through does not contain "to". *)
Lemma run_to_sound s b :
  fold_left step_to s (Some b) ≠ None → ¬ occurs_in (txt "to") (py_lower s).
Proof.
  intros Hrun (pre & post & Heq). apply Hrun. unfold py_lower in Heq.
  apply map_eq_app in Heq as (s1 & s2 & -> & _ & Heq).
  apply map_eq_app in Heq as (pair & s3 & -> & Heq & _).
  destruct pair as [|c1 [|c2 [|]]]; try discriminate Heq.
  injection Heq as Ht%lower_t Ho%lower_o.
  rewrite !fold_left_app. simpl.
  destruct (fold_left step_to s1 (Some b)) as [b'|]; simpl;
    [|apply run_to_None].
  destruct (b' && is_o c1); simpl; [apply run_to_None|].
  rewrite Ht, Ho. simpl. apply run_to_None.
Qed.

Lemma run_neutral_char c b :
  neutral c = true → fold_left step_to [c] (Some b) = Some false.
Proof.
  unfold neutral. intros [Ht Ho]%andb_true_iff. simpl.
  apply negb_true_iff in Ht, Ho. by rewrite Ht, Ho, andb_false_r.
Qed.

Lemma run_neutral x b :
  Forall (λ c, neutral c = true) x → x ≠ [] →
  fold_left step_to x (Some b) = Some false.
Proof.
  intros Hall. revert b. induction Hall as [|c x Hc Hx IH]; intros b Hne;
    [done|].
  change (c :: x) with ([c] ++ x). rewrite fold_left_app, run_neutral_char by done.
  destruct x; [done | by apply IH].
Qed.

Lemma run_amount x b :
  x ≠ [] → Forall (λ c, atom_match true amount_chars c = true) x →
  fold_left step_to x (Some b) = Some false.
Proof.
  intros Hne Hall. apply run_neutral; [|done].
  eapply Forall_impl; [exact Hall|]. apply amount_char_neutral.
Qed.

Lemma run_separator c : fold_left step_to [c] (Some false) = Some (is_t c).
Proof. reflexivity. Qed.

Lemma run_lits l x st :
  lits_eq true l x → fold_left step_to x st = fold_left step_to l st.
Proof.
  intros H. revert st. induction H as [|a b l x Hab _ IH]; intros st; [done|].
  simpl. rewrite IH. f_equal. unfold step_to, is_t, is_o.
  simpl in Hab. apply N.eqb_eq in Hab. unfold cp, code in *. by rewrite Hab.
Qed.

Ltac run_to_step :=
  first
    [ rewrite run_neutral_char by
        first [apply dollar_neutral; assumption
              | apply space_neutral; assumption]
    | rewrite run_amount by assumption
    | rewrite run_separator ].

(** The scanner gets through group 2 of every match of the ticket pattern:
    a "t" can only be the separator of a range, and what follows the
    separator is a space, a dollar sign or an amount character. *)
Lemma ticket_amount_scan w rest c c' :
  matches true ticket_regex w rest c c' →
  ∃ g, c' !! 2 = Some g ∧ fold_left step_to g (Some false) = Some false.
Proof.
  unfold ticket_regex. intros H. invert_matches;
    (eexists; split; [apply lookup_insert_eq|]);
    try match goal with
        | H : matches true (Alt _ _) ?x _ _ _ |- context [?x] =>
            apply (alts_spec true (txt "million")
                     [txt "M"; txt "billion"; txt "B"]) in H
              as [_ (l & Hl & Heq)];
            assert (Hunit : fold_left step_to x (Some false) = Some false) by
              (rewrite (run_lits l x _ Heq);
               apply list_elem_of_In in Hl; simpl in Hl;
               destruct Hl as [<-|[<-|[<-|[<-|[]]]]]; reflexivity)
        end;
    rewrite ?app_nil_l, ?app_nil_r, <- ?app_assoc, ?app_nil_l;
    rewrite !fold_left_app; repeat run_to_step; by rewrite ?Hunit.
Qed.

(** X3.  No ticket size contains the letters "to", in either case: a range
    written "$500,000 to $1 million" is never taken whole. *)
Theorem ticket_size_never_spans_to
    (now : nat → str) (text url : str) (w : World) :
  ∃ recs w',
    extract_data_from_text now text url w = (Ok recs, w') ∧
    ∀ r amount,
      r ∈ recs → ticket_size r = Some amount →
      ¬ occurs_in (txt "to") (py_lower amount).
Proof.
  eexists _, _. split; [apply extract_run|].
  intros r amount Hr. apply records_shape in Hr as (n & s & _ & ->).
  unfold record_of; cbn [ticket_size]. unfold first_ticket.
  destruct (head (scan true ticket_regex text 0)) as [[m c]|] eqn:E; [|done].
  simpl. intros [= <-].
  apply head_elem_of, scan_sound in E as (pre & post & _ & Hm).
  apply ticket_amount_scan in Hm as (g & Hg & Hrun).
  unfold group_text. rewrite Hg. simpl.
  apply (run_to_sound g false). by rewrite Hrun.
Qed.

(** ** What a ticket size quotes *)

Lemma dollar_match_ic c : atom_match true dollar c = true → c = "$"%char.
Proof.
  revert c.
  assert (H : ∀ c, implb (atom_match true dollar c)
                     (bool_decide (c = "$"%char)) = true)
    by (apply ascii_all; vm_compute; reflexivity).
  intros c Hc. specialize (H c). rewrite Hc in H.
  by apply bool_decide_eq_true in H.
Qed.

Lemma any_is_no_newline ic c : atom_match ic AAny c = true → c ≠ newline.
Proof. intros H ->. by vm_compute in H. Qed.

(** A match of the ticket pattern is a cue word, a gap within the line,
    and group 2, which begins with the dollar sign. *)
Lemma ticket_regex_shape w rest c c' :
  matches true ticket_regex w rest c c' →
  ∃ cue gap g,
    w = cue ++ gap ++ g ∧ c' !! 2 = Some g ∧
    cue_match cue ∧
    Forall (λ ch, ch ≠ newline) gap ∧
    head g = Some "$"%char.
Proof.
  unfold ticket_regex. intros H. invert_matches;
    (eexists _, _, _; split; [reflexivity|]; split; [apply lookup_insert_eq|]);
    (split; [|split]);
    match goal with
    | H : matches true (Alt _ _) ?x _ _ _ |- cue_match ?x =>
        apply (alts_spec true (txt "cheque") (tail ticket_cues)) in H
          as [_ (l & Hl & Heq)];
        by exists l
    | H : Forall _ ?gap |- Forall _ ?gap =>
        eapply Forall_impl; [exact H|]; apply any_is_no_newline
    | |- head _ = _ =>
        simpl; f_equal; apply dollar_match_ic; assumption
    end.
Qed.

(** X14.  A ticket size is quoted from the text: it begins with the dollar
    sign, and it stands in the text after a text that the pattern takes for
    one of its cue words, with no line feed between that text and the
    amount. *)
Theorem ticket_size_is_quoted_after_a_cue
    (now : nat → str) (text url : str) (w : World) :
  ∃ recs w',
    extract_data_from_text now text url w = (Ok recs, w') ∧
    ∀ r amount,
      r ∈ recs → ticket_size r = Some amount →
      head amount = Some "$"%char ∧
      ∃ before cue gap after,
        text = before ++ cue ++ gap ++ amount ++ after ∧
        cue_match cue ∧
        Forall (λ ch, ch ≠ newline) gap.
Proof.
  eexists _, _. split; [apply extract_run|].
  intros r amount Hr. apply records_shape in Hr as (n & s & _ & ->).
  unfold record_of; cbn [ticket_size]. unfold first_ticket.
  destruct (head (scan true ticket_regex text 0)) as [[m c]|] eqn:E; [|done].
  simpl. intros [= <-].
  apply head_elem_of, scan_sound in E as (pre & post & -> & Hm).
  apply ticket_regex_shape in Hm as (cue & gap & g & Hw & Hg & Hcue & Hgap & Hd).
  unfold group_text. rewrite Hg. simpl. split; [done|].
  exists pre, cue, gap, post. simpl in Hw. rewrite Hw, <- !app_assoc. done.
Qed.

(** ** The store *)

Lemma largest_id_nonneg rs : (0 ≤ largest_id rs)%Z.
Proof. induction rs as [|[i r] rs IH]; simpl; lia. Qed.

Lemma largest_id_app rs1 rs2 :
  largest_id (rs1 ++ rs2) = Z.max (largest_id rs1) (largest_id rs2).
Proof.
  induction rs1 as [|[i r] rs1 IH]; simpl.
  - pose proof (largest_id_nonneg rs2). lia.
  - fold (largest_id (rs1 ++ rs2)). fold (largest_id rs1). lia.
Qed.

Lemma id_le_largest rs i : i ∈ map fst rs → (i ≤ largest_id rs)%Z.
Proof.
  induction rs as [|[j r] rs IH]; simpl; intros H.
  - by apply elem_of_nil in H.
  - fold (largest_id rs). apply elem_of_cons in H as [->|H]; [lia|].
    apply IH in H. lia.
Qed.

Lemma number_from_snd b entries : map snd (number_from b entries) = entries.
Proof.
  revert b. induction entries as [|e entries IH]; intros b; simpl;
    [done | by rewrite IH].
Qed.

Lemma number_from_app b es1 es2 :
  number_from b (es1 ++ es2) =
  number_from b es1 ++ number_from (b + Z.of_nat (length es1)) es2.
Proof.
  revert b. induction es1 as [|e es1 IH]; intros b; simpl.
  - by rewrite Z.add_0_r.
  - rewrite IH. do 3 f_equal. lia.
Qed.

Lemma number_from_ids_above b entries i :
  i ∈ map fst (number_from b entries) → (b < i)%Z.
Proof.
  revert b. induction entries as [|e entries IH]; intros b; simpl; intros H.
  - by apply elem_of_nil in H.
  - apply elem_of_cons in H as [->|H]; [lia|]. apply IH in H. lia.
Qed.

Lemma number_from_ids_distinct b entries :
  NoDup (map fst (number_from b entries)).
Proof.
  revert b. induction entries as [|e entries IH]; intros b; simpl;
    constructor; [|apply IH].
  intros H. apply number_from_ids_above in H. lia.
Qed.

(** A run of inserts that stays within the id space appends one row per
    entry, numbered upwards from the largest id used so far. *)
Lemma execute_inserts_spec entries t :
  (high_water t + Z.of_nat (length entries) ≤ max_rowid)%Z →
  ∃ t',
    execute_inserts entries (Some t) = Ok (Some t') ∧
    rows t' = rows t ++ number_from (high_water t) entries ∧
    high_water t' = (high_water t + Z.of_nat (length entries))%Z.
Proof.
  revert t. induction entries as [|e entries IH]; intros t Hroom.
  - exists t. simpl. rewrite app_nil_r, Z.add_0_r. done.
  - cbn [execute_inserts execute_insert]. fold (high_water t).
    cbn [length] in Hroom.
    destruct (high_water t + 1 >? max_rowid)%Z eqn:E; [lia|].
    set (t1 := {| rows := rows t ++ [((high_water t + 1)%Z, e)];
                  last_id := (high_water t + 1)%Z |}).
    assert (H1 : high_water t1 = (high_water t + 1)%Z).
    { unfold high_water at 1. simpl. rewrite largest_id_app. simpl.
      pose proof (largest_id_nonneg (rows t)). unfold high_water. lia. }
    destruct (IH t1) as (t' & Hrun & Hrows & Hhigh); [lia|].
    exists t'. split; [done|]. rewrite Hrows, Hhigh, H1. simpl.
    rewrite <- app_assoc. split; [done | lia].
Qed.

Lemma insert_data_to_db_spec entries w t :
  investors_db w = Some t →
  (high_water t + Z.of_nat (length entries) ≤ max_rowid)%Z →
  ∃ t',
    insert_data_to_db entries w = (Ok (), set_investors_db (Some t') w) ∧
    rows t' = rows t ++ number_from (high_water t) entries ∧
    high_water t' = (high_water t + Z.of_nat (length entries))%Z.
Proof.
  intros Hdb Hroom.
  destruct (execute_inserts_spec entries t Hroom) as (t' & Hrun & Hrows & Hhigh).
  exists t'. unfold insert_data_to_db. by rewrite Hdb, Hrun.
Qed.

(** C7.  Appending the same [N] records twice adds [2 * N] rows: the store
    performs no deduplication or upsert.  Each call appends one row per
    record, in order, and every new row gets an id that no earlier row and
    no other new row has. *)
Theorem insert_twice_adds_every_record_twice
    (entries : list InvestorRecord) (w : World) (t : Table) :
  investors_db w = Some t →
  (high_water t + 2 * Z.of_nat (length entries) ≤ max_rowid)%Z →
  ∃ w1 w2 t2 new1 new2,
    insert_data_to_db entries w = (Ok (), w1) ∧
    insert_data_to_db entries w1 = (Ok (), w2) ∧
    investors_db w2 = Some t2 ∧
    rows t2 = rows t ++ new1 ++ new2 ∧
    map snd new1 = entries ∧
    map snd new2 = entries ∧
    length (rows t2) = length (rows t) + 2 * length entries ∧
    NoDup (map fst (new1 ++ new2)) ∧
    ∀ i, i ∈ map fst (new1 ++ new2) → i ∉ map fst (rows t).
Proof.
  intros Hdb Hroom.
  destruct (insert_data_to_db_spec entries w t Hdb) as (t1 & Hrun1 & Hrows1 & Hhigh1);
    [lia|].
  destruct (insert_data_to_db_spec entries (set_investors_db (Some t1) w) t1)
    as (t2 & Hrun2 & Hrows2 & Hhigh2); [done | lia |].
  exists (set_investors_db (Some t1) w),
    (set_investors_db (Some t2) (set_investors_db (Some t1) w)), t2,
    (number_from (high_water t) entries),
    (number_from (high_water t + Z.of_nat (length entries)) entries).
  split; [done|]. split; [exact Hrun2|]. split; [done|].
  rewrite <- number_from_app.
  split; [|split; [|split; [|split; [|split]]]].
  - by rewrite Hrows2, Hrows1, Hhigh1, number_from_app, <- app_assoc.
  - apply number_from_snd.
  - apply number_from_snd.
  - rewrite Hrows2, Hrows1, !length_app, <- !(length_map snd (number_from _ _)),
      !number_from_snd. lia.
  - apply number_from_ids_distinct.
  - intros i Hnew Hold. apply number_from_ids_above in Hnew.
    apply id_le_largest in Hold. unfold high_water in Hnew. lia.
Qed.

(** Two appends of one record to an empty table leave two rows. *)
Lemma insert_twice_adds_every_record_twice_witness :
  ∃ w1 w2 t2 new1 new2,
    insert_data_to_db [sample_record]
      (world_with {| rows := []; last_id := 0 |}) = (Ok (), w1) ∧
    insert_data_to_db [sample_record] w1 = (Ok (), w2) ∧
    investors_db w2 = Some t2 ∧
    rows t2 = [] ++ new1 ++ new2 ∧
    map snd new1 = [sample_record] ∧
    map snd new2 = [sample_record] ∧
    length (rows t2) = 0 + 2 * 1 ∧
    NoDup (map fst (new1 ++ new2)) ∧
    ∀ i, i ∈ map fst (new1 ++ new2) → i ∉ map fst (@nil (Z * InvestorRecord)).
Proof.
  apply (insert_twice_adds_every_record_twice [sample_record]
           (world_with {| rows := []; last_id := 0 |})
           {| rows := []; last_id := 0 |}).
  - reflexivity.
  - vm_compute. discriminate.
Defined.

(** X2.  [init_db] creates the table when it is missing and is idempotent: it
    never raises, keeps the rows of an existing table, and a second call
    changes nothing. *)
Theorem init_db_is_idempotent (w : World) :
  (init_db w).1 = Ok () ∧
  investors_db (init_db w).2 ≠ None ∧
  stored_rows (init_db w).2 = stored_rows w ∧
  init_db (init_db w).2 = init_db w.
Proof.
  unfold init_db, stored_rows.
  destruct (investors_db w) as [t|] eqn:E; simpl; rewrite ?E; by repeat split.
Qed.

Lemma high_water_insert t e :
  high_water {| rows := rows t ++ [((high_water t + 1)%Z, e)];
                last_id := (high_water t + 1)%Z |} = (high_water t + 1)%Z.
Proof.
  unfold high_water at 1. simpl. rewrite largest_id_app. simpl.
  pose proof (largest_id_nonneg (rows t)). unfold high_water. lia.
Qed.

(** Inserts that succeed on a table append the entries, numbered upwards
    from the largest id used so far. *)
Lemma execute_inserts_rows entries t conn' :
  execute_inserts entries (Some t) = Ok conn' →
  ∃ t', conn' = Some t' ∧
        rows t' = rows t ++ number_from (high_water t) entries.
Proof.
  revert t. induction entries as [|e entries IH]; intros t H.
  - injection H as <-. exists t. by rewrite app_nil_r.
  - cbn [execute_inserts execute_insert] in H. fold (high_water t) in H.
    destruct (high_water t + 1 >? max_rowid)%Z; [done|].
    apply IH in H as (t' & -> & Hrows). exists t'. split; [done|].
    rewrite Hrows, high_water_insert. simpl. by rewrite <- app_assoc.
Qed.

(** Inserts that would take an id beyond the largest one fail. *)
Lemma execute_inserts_full entries t :
  entries ≠ [] →
  (max_rowid < high_water t + Z.of_nat (length entries))%Z →
  execute_inserts entries (Some t) =
    Raise (OperationalError (txt "database or disk is full")).
Proof.
  revert t. induction entries as [|e entries IH]; intros t Hne Hfull; [done|].
  cbn [execute_inserts execute_insert]. fold (high_water t).
  destruct (high_water t + 1 >? max_rowid)%Z eqn:E; [done|].
  destruct entries as [|e' entries]; [simpl in Hfull; lia|].
  apply IH; [done|]. rewrite high_water_insert. cbn [length] in *. lia.
Qed.

(** Either every entry is appended, or the call raises and the world is as
    it was. *)
Lemma insert_data_to_db_outcome entries w :
  (∃ added w',
     insert_data_to_db entries w = (Ok (), w') ∧
     stored_rows w' = stored_rows w ++ added ∧
     map snd added = entries ∧
     w' = set_investors_db (investors_db w') w ∧
     (investors_db w ≠ None → investors_db w' ≠ None)) ∨
  (∃ msg,
     entries ≠ [] ∧
     insert_data_to_db entries w = (Raise (OperationalError msg), w) ∧
     (investors_db w ≠ None → msg = txt "database or disk is full")).
Proof.
  unfold insert_data_to_db, stored_rows.
  destruct (investors_db w) as [t|] eqn:Hdb.
  - destruct (Z_le_gt_dec (high_water t + Z.of_nat (length entries)) max_rowid)
      as [Hroom|Hfull].
    + left. destruct (execute_inserts_spec entries t Hroom)
        as (t' & -> & Hrows & _).
      exists (number_from (high_water t) entries), (set_investors_db (Some t') w).
      split; [done|]. split; [exact Hrows|].
      split; [apply number_from_snd | done].
    + destruct entries as [|e entries].
      * left. exists [], (set_investors_db (Some t) w). simpl.
        by rewrite app_nil_r.
      * right. rewrite execute_inserts_full by (done || lia).
        by exists (txt "database or disk is full").
  - destruct entries as [|e entries].
    + left. by exists [], (set_investors_db None w).
    + right. by exists (txt "no such table: investors").
Qed.

(** X7.  A call of [insert_data_to_db] is all or nothing.  Either it returns,
    and then every entry has been appended, in order, after the rows the
    table held and nothing else has changed; or it raises an
    [OperationalError], and then the world is as it was before the call, also
    when some of the inserts had gone through.  An empty list of entries
    always succeeds and changes nothing, also without a table; with entries,
    the call fails when the table is missing and when the ids run out. *)
Theorem insert_data_to_db_all_or_nothing
    (entries : list InvestorRecord) (w : World) :
  ((∃ added w',
      insert_data_to_db entries w = (Ok (), w') ∧
      stored_rows w' = stored_rows w ++ added ∧
      map snd added = entries ∧
      w' = set_investors_db (investors_db w') w) ∨
   (∃ msg,
      entries ≠ [] ∧
      insert_data_to_db entries w = (Raise (OperationalError msg), w))) ∧
  (entries = [] → insert_data_to_db entries w = (Ok (), w)) ∧
  (entries ≠ [] → investors_db w = None →
   insert_data_to_db entries w =
     (Raise (OperationalError (txt "no such table: investors")), w)) ∧
  (∀ t, entries ≠ [] → investors_db w = Some t →
     (max_rowid < high_water t + Z.of_nat (length entries))%Z →
     insert_data_to_db entries w =
       (Raise (OperationalError (txt "database or disk is full")), w)).
Proof.
  split; [|split; [|split]].
  - destruct (insert_data_to_db_outcome entries w)
      as [(added & w' & H1 & H2 & H3 & H4 & _) | (msg & H1 & H2 & _)].
    + left. by exists added, w'.
    + right. by exists msg.
  - intros ->. unfold insert_data_to_db. simpl. by destruct w.
  - intros Hne Hdb. unfold insert_data_to_db. rewrite Hdb.
    by destruct entries.
  - intros t Hne Hdb Hfull. unfold insert_data_to_db.
    by rewrite Hdb, execute_inserts_full.
Qed.

Lemma number_from_ascending b entries :
  ascending (map fst (number_from b entries)).
Proof.
  revert b. induction entries as [|e entries IH]; intros b; simpl;
    constructor; [apply IH|].
  apply Forall_forall. intros i Hi. apply number_from_ids_above in Hi. lia.
Qed.

Lemma ascending_NoDup l : ascending l → NoDup l.
Proof.
  induction 1 as [|x l _ IH Hx]; constructor; [|done].
  intros Hin. rewrite Forall_forall in Hx. specialize (Hx x Hin). lia.
Qed.

(** New ids are larger than every id of the table, so ids that go upwards
    in the order of the table still do after a call. *)
Lemma insert_data_to_db_ascending entries w :
  ascending (ids w) → ascending (ids (insert_data_to_db entries w).2).
Proof.
  intros Hw. unfold insert_data_to_db.
  destruct (execute_inserts entries (investors_db w)) as [conn|x] eqn:E;
    [|done].
  unfold ids, stored_rows in *. simpl.
  destruct (investors_db w) as [t|] eqn:Hdb.
  - apply execute_inserts_rows in E as (t' & -> & Hrows). simpl in *.
    rewrite Hrows, map_app. apply StronglySorted_app_2; [|done|].
    + intros i j Hi Hj. apply id_le_largest in Hi.
      apply number_from_ids_above in Hj. unfold high_water in Hj. lia.
    + apply number_from_ascending.
  - destruct entries; [by injection E as <-|done].
Qed.

(** ** The display *)

Lemma plain_no_bar v c : plain v → c ∈ v → c ≠ "|"%char.
Proof.
  unfold plain. intros Hv Hc ->.
  rewrite forallb_forall in Hv. apply list_elem_of_In, Hv in Hc.
  by vm_compute in Hc.
Qed.

Lemma plain_app a b : plain a → plain b → plain (a ++ b).
Proof. unfold plain. rewrite forallb_app. by intros -> ->. Qed.

Lemma plain_join ks : Forall plain ks → plain (join (txt ", ") ks).
Proof.
  induction 1 as [|k ks Hk Hks IH]; [done|].
  destruct ks as [|k' ks]; [done|].
  rewrite join_cons_cons. apply plain_app; [done|]. by apply plain_app.
Qed.

Lemma keywords_in_plain vocabulary text :
  Forall plain vocabulary → Forall plain (keywords_in vocabulary text).
Proof.
  intros Hv. destruct (keywords_in_spec vocabulary text) as [Hsub _].
  rewrite Forall_forall in Hv. apply Forall_forall. intros k Hk.
  by eapply Hv, elem_of_sublist.
Qed.

Lemma split_bar_app x rest cur :
  (∀ c, c ∈ x → c ≠ "|"%char) →
  split_bar (x ++ rest) cur = split_bar rest (cur ++ x).
Proof.
  revert cur. induction x as [|c x IH]; intros cur Hx; simpl.
  - by rewrite app_nil_r.
  - rewrite bool_decide_eq_false_2 by (apply Hx; left).
    rewrite IH by (intros c' Hc'; apply Hx; by right).
    by rewrite <- app_assoc.
Qed.

Lemma split_bar_join v vs cur :
  Forall plain (v :: vs) →
  split_bar (join (txt "|") (v :: vs)) cur = (cur ++ v) :: vs.
Proof.
  revert v cur. induction vs as [|v' vs IH]; intros v cur Hp.
  - simpl. rewrite <- (app_nil_r v) at 1.
    rewrite split_bar_app; [done|].
    intros c. apply plain_no_bar. by inversion Hp.
  - rewrite join_cons_cons. inversion Hp as [|? ? Hv Hvs]; subst.
    rewrite split_bar_app by (intros c; by apply plain_no_bar).
    change (txt "|" ++ join (txt "|") (v' :: vs))
      with ("|"%char :: join (txt "|") (v' :: vs)).
    cbn [split_bar]. rewrite bool_decide_eq_true_2 by done.
    by rewrite IH.
Qed.

Lemma compile_plain_join v vs :
  Forall plain (v :: vs) →
  compile_plain (join (txt "|") (v :: vs)) = Some (alts v vs).
Proof.
  intros Hp. unfold compile_plain. rewrite split_bar_join by done.
  simpl app.
  assert (H : forallb (forallb (λ c, negb (is_meta c))) (v :: vs) = true).
  { apply forallb_forall. intros x Hx.
    rewrite Forall_forall in Hp. by apply Hp, list_elem_of_In. }
  by rewrite H.
Qed.

(** A search for an alternation of literal texts succeeds exactly when one
    of the texts occurs. *)
Lemma re_search_alts v vs field :
  re_search false (alts v vs) field = true ↔
  ∃ x, x ∈ v :: vs ∧ occurs_in x field.
Proof.
  unfold re_search. split.
  - destruct (scan false (alts v vs) field 0) as [|[w c] l] eqn:E; [done|].
    intros _.
    assert (Hin : (w, c) ∈ scan false (alts v vs) field 0) by (rewrite E; left).
    apply scan_sound in Hin as (pre & post & -> & Hm).
    apply alts_spec in Hm as [_ (x & Hx & Heq)].
    apply lits_eq_exact in Heq as ->. exists x. split; [done|].
    by exists pre, post.
  - intros (x & Hx & pre & post & ->).
    assert (Hs : scan false (alts v vs) (pre ++ x ++ post) 0 ≠ []).
    { apply (scan_complete _ _ _ x). exists pre, post, ∅. split; [done|].
      apply alts_spec. split; [done|]. exists x. split; [done|].
      by apply lits_eq_exact. }
    by destruct (scan false (alts v vs) (pre ++ x ++ post) 0).
Qed.

Lemma sublist_List_filter {A} (f : A → bool) l : sublist (List.filter f l) l.
Proof.
  induction l as [|x l IH]; simpl; [constructor|].
  destruct (f x); [by constructor | by apply sublist_cons].
Qed.

Lemma filter_rows_frame col selected df w :
  (filter_rows col selected df w).2 = w.
Proof.
  unfold filter_rows. destruct (truthy selected); [|done].
  by destruct (compile_plain _).
Qed.

(** With plain filter values the rows kept are those whose field contains
    one of the selected values, in the order of the table. *)
Lemma filter_rows_spec col selected df w :
  Forall plain selected →
  ∃ kept,
    filter_rows col selected df w = (Ok kept, w) ∧
    sublist kept df ∧
    ∀ row, row ∈ kept ↔ row ∈ df ∧ passes selected (col row.2).
Proof.
  intros Hp. unfold filter_rows, passes.
  destruct selected as [|v vs]; simpl truthy; cbv iota.
  - exists df. split; [done|]. split; [done|]. intros row. split; [auto|].
    by intros [? _].
  - rewrite compile_plain_join by done. eexists. split; [done|].
    split; [apply sublist_List_filter|].
    intros row. rewrite !list_elem_of_In, filter_In, re_search_alts. split.
    + intros [Hin Hex]. auto.
    + intros [Hin [Hnil|Hex]]; [done | auto].
Qed.

(** Reading, filtering and displaying change nothing in the world. *)
Lemma show_investors_frame multiselect w :
  (show_investors multiselect w).2 = w.
Proof.
  unfold show_investors, read_sql_query.
    unfold mbind at 1, M_bind at 1.
    destruct (investors_db w) as [t|]; [|done].
    unfold mbind at 1, M_bind at 1.
    pose proof (filter_rows_frame sectors
      (multiselect (txt "Filter by Sector") (filter_options sectors (rows t)))
      (rows t) w) as H1.
    destruct (filter_rows sectors _ (rows t) w) as [[df1|e1] w1];
      simpl in H1; subst w1; [|done].
    unfold mbind at 1, M_bind at 1.
    pose proof (filter_rows_frame geographies
      (multiselect (txt "Filter by Geography")
         (filter_options geographies (rows t))) df1 w) as H2.
    destruct (filter_rows geographies _ df1 w) as [[df2|e2] w2];
      simpl in H2; subst w2; done.
Qed.

(** C8.  Filtering and display leave the store, and the rest of the world,
    as they were, whatever is stored and whatever is selected.  With filter
    values free of pattern metacharacters the rows shown are the rows of
    the table, in its order, whose sectors contain one of the selected
    sectors (when any is selected) and whose geographies contain one of the
    selected geographies (when any is selected). *)
Theorem show_investors_leaves_the_store
    (multiselect : str → list str → list str) (w : World) :
  (show_investors multiselect w).2 = w ∧
  investors_db (show_investors multiselect w).2 = investors_db w ∧
  ∀ t,
    investors_db w = Some t →
    Forall plain
      (multiselect (txt "Filter by Sector") (filter_options sectors (rows t))) →
    Forall plain
      (multiselect (txt "Filter by Geography")
         (filter_options geographies (rows t))) →
    ∃ kept,
      (show_investors multiselect w).1 = Ok (map (λ row, as_link row.2) kept) ∧
      sublist kept (rows t) ∧
      ∀ row, row ∈ kept ↔
        row ∈ rows t ∧
        passes (multiselect (txt "Filter by Sector")
                  (filter_options sectors (rows t))) (sectors row.2) ∧
        passes (multiselect (txt "Filter by Geography")
                  (filter_options geographies (rows t))) (geographies row.2).
Proof.
  pose proof (show_investors_frame multiselect w) as Hframe.
  split; [exact Hframe|]. split; [by rewrite Hframe|].
  intros t Hdb Hps Hpg.
  unfold show_investors, read_sql_query.
  unfold mbind at 1, M_bind at 1. rewrite Hdb.
  unfold mbind at 1, M_bind at 1.
  destruct (filter_rows_spec sectors _ (rows t) w Hps)
    as (kept1 & -> & Hsub1 & Hin1).
  unfold mbind at 1, M_bind at 1.
  destruct (filter_rows_spec geographies _ kept1 w Hpg)
    as (kept2 & -> & Hsub2 & Hin2).
  exists kept2. split.
  - simpl. rewrite map_map. reflexivity.
  - split; [by etrans|]. intros row. rewrite Hin2, Hin1. tauto.
Qed.

(** With the sector "AI, crypto" selected, the display of a table of two
    rows keeps the table and shows rows that contain the selection. *)
Lemma show_investors_leaves_the_store_witness :
  (show_investors select_ai_crypto (world_with two_rows)).2 =
    world_with two_rows ∧
  ∃ kept,
    (show_investors select_ai_crypto (world_with two_rows)).1 =
      Ok (map (λ row, as_link row.2) kept) ∧
    sublist kept (rows two_rows) ∧
    ∀ row, row ∈ kept ↔
      row ∈ rows two_rows ∧
      passes (select_ai_crypto (txt "Filter by Sector")
                (filter_options sectors (rows two_rows))) (sectors row.2) ∧
      passes (select_ai_crypto (txt "Filter by Geography")
                (filter_options geographies (rows two_rows)))
        (geographies row.2).
Proof.
  split.
  - apply (show_investors_leaves_the_store select_ai_crypto
             (world_with two_rows)).
  - apply (proj2 (proj2 (show_investors_leaves_the_store select_ai_crypto
                           (world_with two_rows))) two_rows).
    + reflexivity.
    + by repeat constructor.
    + constructor.
Defined.

(** X4.  The sectors and geographies the extractor writes contain no pattern
    metacharacter, so a filter over values this program stored is an
    alternation of plain texts. *)
Theorem extract_fields_are_plain (now : nat → str) (text url : str) (w : World) :
  ∃ recs w',
    extract_data_from_text now text url w = (Ok recs, w') ∧
    ∀ r, r ∈ recs → plain (sectors r) ∧ plain (geographies r).
Proof.
  eexists _, _. split; [apply extract_run|].
  intros r Hr. apply records_shape in Hr as (n & s & _ & ->).
  unfold record_of; cbn [sectors geographies].
  split; apply plain_join, keywords_in_plain; by repeat constructor.
Qed.

Lemma str_leb_total a b : str_leb a b = false → str_leb b a = true.
Proof.
  revert b. induction a as [|x a IH]; intros [|y b]; simpl; try done.
  destruct (N.ltb_spec (code x) (code y)); [done|].
  destruct (N.ltb_spec (code y) (code x)); [done|]. apply IH.
Qed.

Lemma str_leb_trans a b c :
  str_leb a b = true → str_leb b c = true → str_leb a c = true.
Proof.
  revert b c. induction a as [|x a IH]; intros [|y b] [|z c]; simpl; try done.
  destruct (N.ltb_spec (code x) (code y)), (N.ltb_spec (code y) (code z)),
    (N.ltb_spec (code x) (code z)), (N.ltb_spec (code y) (code x)),
    (N.ltb_spec (code z) (code y)), (N.ltb_spec (code z) (code x));
    try done; try lia.
  apply IH.
Qed.

Lemma insert_sorted_perm x l : insert_sorted x l ≡ₚ x :: l.
Proof.
  induction l as [|y l IH]; simpl; [done|].
  destruct (str_leb x y); [done|]. by rewrite IH, Permutation_swap.
Qed.

Lemma py_sorted_perm l : py_sorted l ≡ₚ l.
Proof.
  induction l as [|x l IH]; simpl; [done|].
  by rewrite insert_sorted_perm, IH.
Qed.

Lemma insert_sorted_sorted x l :
  StronglySorted str_le l → StronglySorted str_le (insert_sorted x l).
Proof.
  induction 1 as [|y l Hl IH Hy]; simpl; [by repeat constructor|].
  destruct (str_leb x y) eqn:E.
  - constructor; [by constructor|]. constructor; [done|].
    eapply Forall_impl; [exact Hy|]. intros z. by apply str_leb_trans.
  - constructor; [done|]. rewrite insert_sorted_perm.
    constructor; [by apply str_leb_total | done].
Qed.

Lemma py_sorted_sorted l : StronglySorted str_le (py_sorted l).
Proof.
  induction l as [|x l IH]; simpl; [constructor | by apply insert_sorted_sorted].
Qed.

Lemma elem_of_filter_options col df x :
  x ∈ filter_options col df ↔ ∃ row, row ∈ df ∧ col row.2 = x.
Proof.
  unfold filter_options.
  rewrite py_sorted_perm, elem_of_remove_dups, list_elem_of_fmap. split.
  - intros (row & -> & Hrow). by exists row.
  - intros (row & Hrow & <-). by exists row.
Qed.

(** X12.  The options of a filter are the values of its column: every value
    some row has, each once, in ascending order of code points (a prefix
    before its extensions). *)
Theorem filter_options_sorted_distinct
    (col : InvestorRecord → str) (df : list (Z * InvestorRecord)) :
  StronglySorted str_le (filter_options col df) ∧
  NoDup (filter_options col df) ∧
  ∀ x, x ∈ filter_options col df ↔ ∃ row, row ∈ df ∧ col row.2 = x.
Proof.
  split; [apply py_sorted_sorted|]. split; [|apply elem_of_filter_options].
  unfold filter_options. rewrite py_sorted_perm. apply NoDup_remove_dups.
Qed.

Lemma filter_all {A} (f : A → bool) l :
  (∀ x, x ∈ l → f x = true) → List.filter f l = l.
Proof.
  induction l as [|x l IH]; intros H; simpl; [done|].
  rewrite (H x) by left. f_equal. apply IH. intros y Hy. apply H. by right.
Qed.

(** A filter with nothing selected, or with the empty value among the
    selected ones, keeps every row. *)
Lemma filter_rows_all col selected df w :
  Forall plain selected → selected = [] ∨ [] ∈ selected →
  filter_rows col selected df w = (Ok df, w).
Proof.
  intros Hp Hsel. unfold filter_rows.
  destruct selected as [|v vs]; [done|]. simpl truthy. cbv iota.
  destruct Hsel as [|Hsel]; [done|].
  rewrite compile_plain_join by done. unfold mret, M_ret. do 2 f_equal.
  apply filter_all. intros row _. apply re_search_alts.
  exists []. split; [done|]. by exists [], (col row.2).
Qed.

(** With plain filter values the display returns. *)
Lemma show_investors_run multiselect w t :
  investors_db w = Some t →
  Forall plain
    (multiselect (txt "Filter by Sector") (filter_options sectors (rows t))) →
  Forall plain
    (multiselect (txt "Filter by Geography")
       (filter_options geographies (rows t))) →
  ∃ kept,
    show_investors multiselect w =
      (Ok (map (λ row : Z * InvestorRecord, as_link row.2) kept), w).
Proof.
  intros Hdb Hps Hpg.
  unfold show_investors, read_sql_query.
  unfold mbind at 1, M_bind at 1. rewrite Hdb.
  unfold mbind at 1, M_bind at 1.
  destruct (filter_rows_spec sectors _ (rows t) w Hps) as (kept1 & -> & _).
  unfold mbind at 1, M_bind at 1.
  destruct (filter_rows_spec geographies _ kept1 w Hpg) as (kept2 & -> & _).
  exists kept2. simpl. by rewrite map_map.
Qed.

(** X13.  The empty value does not narrow the table.  A record without a
    sector keyword has the empty string as its sectors, which is then among
    the options; the pattern built from a selection that holds the empty
    string matches every field.  So when in each filter nothing or the empty
    value (possibly with others) is selected, every row of the table is
    shown, in order, each with its source as a link. *)
Theorem empty_filter_value_keeps_every_row
    (multiselect : str → list str → list str) (w : World) (t : Table) :
  investors_db w = Some t →
  Forall plain
    (multiselect (txt "Filter by Sector") (filter_options sectors (rows t))) →
  Forall plain
    (multiselect (txt "Filter by Geography")
       (filter_options geographies (rows t))) →
  multiselect (txt "Filter by Sector") (filter_options sectors (rows t)) = [] ∨
  [] ∈ multiselect (txt "Filter by Sector") (filter_options sectors (rows t)) →
  multiselect (txt "Filter by Geography")
    (filter_options geographies (rows t)) = [] ∨
  [] ∈ multiselect (txt "Filter by Geography")
         (filter_options geographies (rows t)) →
  show_investors multiselect w =
    (Ok (map (λ row : Z * InvestorRecord, as_link row.2) (rows t)), w).
Proof.
  intros Hdb Hps Hpg Hs Hg.
  unfold show_investors, read_sql_query.
  unfold mbind at 1, M_bind at 1. rewrite Hdb.
  unfold mbind at 1, M_bind at 1. rewrite filter_rows_all by done.
  unfold mbind at 1, M_bind at 1. rewrite filter_rows_all by done.
  simpl. by rewrite map_map.
Qed.

(** A table with a row without sector and geography, of which the user
    selects the empty value in both filters: all three rows are shown. *)
Lemma empty_filter_value_keeps_every_row_witness :
  show_investors select_blank (world_with blank_rows) =
    (Ok (map (λ row : Z * InvestorRecord, as_link row.2) (rows blank_rows)),
     world_with blank_rows).
Proof.
  apply (empty_filter_value_keeps_every_row select_blank
           (world_with blank_rows) blank_rows).
  - reflexivity.
  - vm_compute. by repeat constructor.
  - vm_compute. by repeat constructor.
  - right. vm_compute. left.
  - right. vm_compute. left.
Defined.

(** X18.  What is inserted is what is displayed.  On a table with room for
    the entries, a call of [insert_data_to_db] followed by the display with
    nothing selected shows the rows the table held and then the entries, in
    order, each with its source turned into a link and its other fields
    unchanged. *)
Theorem inserted_records_are_displayed
    (multiselect : str → list str → list str)
    (entries : list InvestorRecord) (w : World) (t : Table) :
  investors_db w = Some t →
  (high_water t + Z.of_nat (length entries) ≤ max_rowid)%Z →
  (∀ label options, multiselect label options = []) →
  ∃ w',
    insert_data_to_db entries w = (Ok (), w') ∧
    show_investors multiselect w' =
      (Ok (map as_link (map snd (rows t)) ++ map as_link entries), w').
Proof.
  intros Hdb Hroom Hsel.
  destruct (insert_data_to_db_spec entries w t Hdb Hroom)
    as (t' & -> & Hrows & _).
  eexists. split; [reflexivity|].
  unfold show_investors, read_sql_query.
  unfold mbind at 1, M_bind at 1. simpl investors_db. cbv iota.
  unfold mbind at 1, M_bind at 1. rewrite !Hsel.
  unfold mbind, M_bind, mret, M_ret. simpl.
  rewrite <- (number_from_snd (high_water t) entries) at 1.
  by rewrite Hrows, !map_app, !map_map.
Qed.

(** One record inserted into the table of two rows: three rows are shown. *)
Lemma inserted_records_are_displayed_witness :
  ∃ w',
    insert_data_to_db [sample_record] (world_with two_rows) = (Ok (), w') ∧
    show_investors select_nothing w' =
      (Ok (map as_link (map snd (rows two_rows)) ++ map as_link [sample_record]),
       w').
Proof.
  apply (inserted_records_are_displayed select_nothing [sample_record]
           (world_with two_rows) two_rows).
  - reflexivity.
  - vm_compute. discriminate.
  - reflexivity.
Defined.

(** ** The fetcher *)

Lemma elem_of_pick {A} (f : nat → str → option A) first us a :
  a ∈ pick first us f ↔ ∃ i u, us !! i = Some u ∧ f (first + i) u = Some a.
Proof.
  revert first. induction us as [|u us IH]; intros first; simpl.
  - split; [by intros H%elem_of_nil | by intros (i & u & H & _)].
  - assert (Hrest : a ∈ pick (S first) us f ↔
                    ∃ i u', us !! i = Some u' ∧ f (first + S i) u' = Some a).
    { rewrite IH. by setoid_rewrite Nat.add_succ_r. }
    destruct (f first u) as [b|] eqn:E.
    + rewrite elem_of_cons, Hrest. split.
      * intros [->|(i & u' & Hi & Hf)].
        -- exists 0, u. by rewrite Nat.add_0_r.
        -- by exists (S i), u'.
      * intros ([|i] & u' & Hi & Hf).
        -- left. simpl in Hi. injection Hi as <-.
           rewrite Nat.add_0_r in Hf. congruence.
        -- right. by exists i, u'.
    + rewrite Hrest. split.
      * intros (i & u' & Hi & Hf). by exists (S i), u'.
      * intros ([|i] & u' & Hi & Hf).
        -- simpl in Hi. injection Hi as <-.
           rewrite Nat.add_0_r in Hf. congruence.
        -- by exists i, u'.
Qed.

Lemma pick_lengths http_get first us :
  length (pick first us (article_of http_get)) +
  length (pick first us (warning_of http_get)) = length us.
Proof.
  revert first. induction us as [|u us IH]; intros first; simpl; [done|].
  unfold article_of at 1, warning_of at 1.
  destruct (http_get first u); simpl; rewrite <- (IH (S first)); lia.
Qed.

Section FetcherRun.
Variable http_get : nat → str → response.

(** The loop makes one request per address, in order; a page adds an
    article, a failure adds a warning, and the loop itself never raises. *)
Lemma fetch_each_run urls w :
  fetch_each http_get urls w =
    (Ok (pick (requests w) urls (article_of http_get)),
     set_warnings (warnings w ++ pick (requests w) urls (warning_of http_get))
       (set_requests (requests w + length urls) w)).
Proof.
  unfold fetch_each.
  match goal with |- for_each _ _ ?b _ = _ => set (body := b) end.
  enough (H : ∀ acc w0, for_each urls acc body w0 =
    (Ok (acc ++ pick (requests w0) urls (article_of http_get)),
     set_warnings (warnings w0 ++ pick (requests w0) urls (warning_of http_get))
       (set_requests (requests w0 + length urls) w0))) by apply (H []).
  induction urls as [|u urls IH]; intros acc w0.
  - simpl. rewrite !app_nil_r, Nat.add_0_r. by destruct w0.
  - cbn [for_each pick length].
    unfold mbind at 1, M_bind at 1, body at 1, try_except, fetch_text,
      article_of at 1, warning_of at 1.
    unfold mbind at 1, M_bind at 1.
    destruct (http_get (requests w0) u) as [paragraphs|e].
    + unfold mret at 1, M_ret at 1. rewrite IH. simpl.
      rewrite <- app_assoc. do 2 f_equal.
      unfold set_warnings, set_requests. simpl. f_equal. lia.
    + unfold mbind at 1, M_bind at 1, st_warning, mret at 1, M_ret at 1.
      rewrite IH. simpl. f_equal.
      unfold set_warnings, set_requests. simpl. rewrite <- app_assoc.
      f_equal. lia.
Qed.
End FetcherRun.

(** C9.  The fetcher goes through the addresses in order and never raises.
    Request number [i] either yields the article of its address or, when
    fetching or parsing fails, a warning; a failure adds nothing to the
    articles, and every address is requested whatever happened before. *)
Theorem fetch_skips_failed_urls
    (http_get : nat → str → response) (urls : list str) (w : World) :
  ∃ articles w',
    fetch_each http_get urls w = (Ok articles, w') ∧
    requests w' = requests w + length urls ∧
    (∀ a, a ∈ articles ↔
       ∃ i u paragraphs,
         urls !! i = Some u ∧
         http_get (requests w + i) u = Page paragraphs ∧
         a = {| url := u; text := join (txt " ") paragraphs |}) ∧
    (∃ new, warnings w' = warnings w ++ new ∧
       length articles + length new = length urls ∧
       ∀ m, m ∈ new ↔
         ∃ i u e,
           urls !! i = Some u ∧
           http_get (requests w + i) u = Fails e ∧
           m = txt "Failed to fetch " ++ u ++ txt ": " ++ exn_str e) ∧
    investors_db w' = investors_db w ∧
    (∀ url_input,
       fetch_articles_from_user_input http_get url_input =
       fetch_each http_get (entered_urls url_input)).
Proof.
  eexists _, _. split; [apply fetch_each_run|]. split; [done|].
  split; [|split; [|split; [done | done]]].
  - intros a. rewrite elem_of_pick. unfold article_of. split.
    + intros (i & u & Hi & Hf).
      destruct (http_get (requests w + i) u) as [ps|e] eqn:E; [|done].
      exists i, u, ps. by injection Hf as <-.
    + intros (i & u & ps & Hi & Hf & ->). exists i, u. by rewrite Hf.
  - exists (pick (requests w) urls (warning_of http_get)).
    split; [done|]. split; [apply pick_lengths|].
    intros m. rewrite elem_of_pick. unfold warning_of. split.
    + intros (i & u & Hi & Hf).
      destruct (http_get (requests w + i) u) as [ps|e] eqn:E; [done|].
      exists i, u, e. by injection Hf as <-.
    + intros (i & u & e & Hi & Hf & ->). exists i, u. by rewrite Hf.
Qed.

Lemma lstrip_head s c : head (lstrip s) = Some c → is_whitespace c = false.
Proof.
  induction s as [|x s IH]; simpl; [done|].
  destruct (is_whitespace x) eqn:E; [done|]. simpl. by intros [= <-].
Qed.

Lemma lstrip_suffix s : ∃ ws, s = ws ++ lstrip s.
Proof.
  induction s as [|x s [ws IH]]; simpl; [by exists []|].
  destruct (is_whitespace x); [|by exists []].
  exists (x :: ws). simpl. by f_equal.
Qed.

Lemma last_app_nonempty {A} (l1 l2 : list A) :
  l2 ≠ [] → last (l1 ++ l2) = last l2.
Proof.
  intros H. destruct l2 as [|x l2] using rev_ind; [done|].
  by rewrite app_assoc, !last_snoc.
Qed.

Lemma strip_ends s :
  (∀ c, head (strip s) = Some c → is_whitespace c = false) ∧
  (∀ c, last (strip s) = Some c → is_whitespace c = false).
Proof.
  unfold strip. split; intros c.
  - rewrite head_reverse.
    destruct (lstrip_suffix (reverse (lstrip s))) as [ws Hws].
    destruct (lstrip (reverse (lstrip s))) as [|x l] eqn:E; [done|].
    intros Hlast.
    assert (H : last (reverse (lstrip s)) = Some c).
    { rewrite Hws. by rewrite last_app_nonempty. }
    rewrite last_reverse in H. by apply lstrip_head in H.
  - rewrite last_reverse. apply lstrip_head.
Qed.

(** X6.  The addresses fetched are the lines of the input, trimmed, without the
    blank ones: none is empty and none begins or ends with whitespace. *)
Theorem entered_urls_are_trimmed (url_input u : str) :
  u ∈ entered_urls url_input →
  (∃ line, line ∈ splitlines url_input ∧ u = strip line) ∧
  u ≠ [] ∧
  (∀ c, head u = Some c → is_whitespace c = false) ∧
  (∀ c, last u = Some c → is_whitespace c = false).
Proof.
  unfold entered_urls. intros H.
  apply list_elem_of_omap in H as (line & Hline & H).
  destruct (strip line) as [|x l] eqn:E; simpl in H; [done|].
  injection H as <-. split; [|split; [done|]].
  - exists line. by rewrite E.
  - rewrite <- E. apply strip_ends.
Qed.

(** Two addresses around a blank line, with spaces to trim. *)
Lemma entered_urls_are_trimmed_witness :
  (∃ line,
     line ∈ splitlines sample_input ∧ txt "http://example.org/a" = strip line) ∧
  txt "http://example.org/a" ≠ [] ∧
  (∀ c, head (txt "http://example.org/a") = Some c → is_whitespace c = false) ∧
  (∀ c, last (txt "http://example.org/a") = Some c → is_whitespace c = false).
Proof.
  apply (entered_urls_are_trimmed sample_input). vm_compute. left.
Defined.

Lemma splitlines_from_app u rest cur :
  Forall (λ c, is_linebreak c = false ∧ code c ≠ 13%N) u →
  splitlines_from (u ++ rest) cur = splitlines_from rest (cur ++ u).
Proof.
  intros Hu. revert cur.
  induction Hu as [|c u [Hc1 Hc2] _ IH]; intros cur; simpl.
  - by rewrite app_nil_r.
  - apply N.eqb_neq in Hc2. rewrite Hc2, Hc1, IH. by rewrite <- app_assoc.
Qed.

Lemma splitlines_join us :
  Forall clean_line us → splitlines (join [newline] us) = us.
Proof.
  unfold splitlines. induction 1 as [|u us (Hne & _ & _ & Hu) _ IH]; [done|].
  destruct us as [|u' us].
  - simpl. rewrite <- (app_nil_r u) at 1. rewrite splitlines_from_app by done.
    simpl. by destruct u.
  - rewrite join_cons_cons, splitlines_from_app by done.
    change (splitlines_from ([newline] ++ ?rest) ?cur)
      with (cur :: splitlines_from rest []).
    by rewrite IH.
Qed.

Lemma lstrip_id s :
  (∀ c, head s = Some c → is_whitespace c = false) → lstrip s = s.
Proof. destruct s as [|c s]; simpl; [done|]. intros H. by rewrite H. Qed.

Lemma strip_clean u : clean_line u → strip u = u.
Proof.
  intros (_ & Hhead & Hlast & _). unfold strip.
  rewrite (lstrip_id u) by done.
  rewrite lstrip_id; [apply reverse_involutive|].
  intros c. rewrite head_reverse. apply Hlast.
Qed.

(** X17.  Addresses typed one per line are read back as they are: when each
    is non-empty, has no white space at its ends and no line boundary
    inside, the addresses fetched for the lines joined by line feeds are
    exactly these addresses, in order, repetitions included. *)
Theorem entered_urls_round_trip (urls : list str) :
  Forall clean_line urls → entered_urls (join [newline] urls) = urls.
Proof.
  intros H. unfold entered_urls. rewrite splitlines_join by done.
  induction H as [|u us Hu _ IH]; [done|].
  cbn [omap list_omap]. rewrite strip_clean by done.
  fold (omap (M := list)
          (λ u : str, if truthy (strip u) then Some (strip u) else None) us).
  rewrite IH. destruct Hu as [Hne _]. by destruct u.
Qed.

(** Two addresses, one with a space inside. *)
Lemma entered_urls_round_trip_witness :
  entered_urls (join [newline] sample_urls) = sample_urls.
Proof.
  apply (entered_urls_round_trip sample_urls).
  repeat constructor; try done; by intros c [= <-].
Defined.

Lemma join_starts sep b ps : ∃ rest, join sep (b :: ps) = b ++ rest.
Proof.
  destruct ps as [|p ps]; [exists []; simpl; by rewrite app_nil_r|].
  rewrite join_cons_cons. eauto.
Qed.

(** Two neighbours of a joined list stand in the result with the separator
    between them. *)
Lemma join_occurs sep ps1 a b ps2 :
  occurs_in (a ++ sep ++ b) (join sep (ps1 ++ a :: b :: ps2)).
Proof.
  induction ps1 as [|p ps1 (pre & post & IH)].
  - simpl app. rewrite join_cons_cons.
    destruct (join_starts sep b ps2) as [rest ->].
    exists [], rest. simpl. by rewrite <- !app_assoc.
  - destruct (ps1 ++ a :: b :: ps2) as [|y l] eqn:E; [by destruct ps1|].
    simpl app. rewrite E, join_cons_cons, IH.
    exists (p ++ sep ++ pre), post. by rewrite <- !app_assoc.
Qed.

(** X19.  Paragraphs are joined by a space before extraction, so a fund name
    is found across a paragraph boundary: when one paragraph of the page
    ends with a capitalized word and the next begins with a word of the
    suffix vocabulary, the two words with the space between them are a fund
    phrase of the article's text, and the extractor emits a record for the
    article. *)
Theorem fund_name_across_paragraphs
    (now : nat → str) (http_get : nat → str → response)
    (u pre word suffix post : str) (ps1 ps2 : list str) (w : World) :
  http_get (requests w) u =
    Page (ps1 ++ [pre ++ word; suffix ++ post] ++ ps2) →
  capitalized_word word → suffix ∈ fund_suffixes →
  ∃ a w1 recs w2,
    fetch_each http_get [u] w = (Ok [a], w1) ∧
    url a = u ∧
    fund_phrase (word ++ txt " " ++ suffix) ∧
    occurs_in (word ++ txt " " ++ suffix) (text a) ∧
    extract_data_from_text now (text a) (url a) w1 = (Ok recs, w2) ∧
    recs ≠ [].
Proof.
  intros Hpage Hword Hsuffix.
  assert (Hp : fund_phrase (word ++ txt " " ++ suffix)).
  { exists word, " "%char, suffix. by repeat split. }
  assert (Hocc : occurs_in (word ++ txt " " ++ suffix)
                   (join (txt " ")
                      (ps1 ++ [pre ++ word; suffix ++ post] ++ ps2))).
  { eapply occurs_in_trans; [|apply join_occurs].
    exists pre, post. by rewrite <- !app_assoc. }
  exists {| url := u;
            text := join (txt " ")
                      (ps1 ++ [pre ++ word; suffix ++ post] ++ ps2) |}.
  eexists _, _, _. split.
  { rewrite fetch_each_run. simpl. unfold article_of. by rewrite Hpage. }
  split; [reflexivity|]. split; [done|]. split; [exact Hocc|].
  split; [apply extract_run|]. simpl.
  intros Hnil. apply (f_equal (map fund)) in Hnil.
  rewrite records_funds in Hnil.
  by apply (funds_of_nonempty _ (findall_fund_complete _ _ Hp Hocc)).
Qed.

(** "Acme" ends one paragraph and "Capital" begins the next. *)
Lemma fund_name_across_paragraphs_witness :
  ∃ a w1 recs w2,
    fetch_each two_paragraphs [txt "http://example.org/a"] fresh_world =
      (Ok [a], w1) ∧
    url a = txt "http://example.org/a" ∧
    fund_phrase (txt "Acme" ++ txt " " ++ txt "Capital") ∧
    occurs_in (txt "Acme" ++ txt " " ++ txt "Capital") (text a) ∧
    extract_data_from_text fixed_clock (text a) (url a) w1 = (Ok recs, w2) ∧
    recs ≠ [].
Proof.
  apply (fund_name_across_paragraphs fixed_clock two_paragraphs
           (txt "http://example.org/a") (txt "A word from ") (txt "Acme")
           (txt "Capital") (txt " is scarce") [] [] fresh_world).
  - reflexivity.
  - exists "A"%char, (txt "cme"). by repeat constructor.
  - left.
Defined.

(** ** A whole run *)

(** What holds of the world before a computation and is kept by each of
    its steps holds after it, whether it returns or raises. *)
Lemma bind_preserves {A B} (P : World → Prop) (m : M A) (f : A → M B) w :
  P (m w).2 → (∀ a w1, P w1 → P (f a w1).2) → P ((m ≫= f) w).2.
Proof.
  intros Hm Hf. unfold mbind, M_bind.
  destruct (m w) as [[a|e] w1]; simpl in *; auto.
Qed.

Lemma for_each_preserves {A B} (P : World → Prop) (xs : list A) (acc : B)
    (body : B → A → M B) w :
  (∀ acc' x w1, P w1 → P (body acc' x w1).2) →
  P w → P (for_each xs acc body w).2.
Proof.
  intros Hbody. revert acc w.
  induction xs as [|x xs IH]; intros acc w Hw; simpl; [done|].
  apply bind_preserves; [by apply Hbody|]. intros acc' w1. apply IH.
Qed.

Lemma execute_inserts_appends entries conn conn' :
  execute_inserts entries conn = Ok conn' →
  ∃ added, rows_of conn' = rows_of conn ++ added ∧ map snd added = entries.
Proof.
  revert conn. induction entries as [|e entries IH]; intros conn H; simpl in H.
  - injection H as <-. exists []. by rewrite app_nil_r.
  - destruct conn as [t|]; simpl in H; [|done].
    destruct (_ >? max_rowid)%Z; [done|].
    apply IH in H as (added & -> & <-). simpl.
    eexists (_ :: added). by rewrite <- app_assoc.
Qed.

Lemma insert_data_to_db_extends entries base w :
  extends base w → extends base (insert_data_to_db entries w).2.
Proof.
  intros [added Hw]. unfold insert_data_to_db.
  destruct (execute_inserts entries (investors_db w)) as [conn|x] eqn:E.
  - apply execute_inserts_appends in E as (more & Hrows & _).
    exists (added ++ more). unfold stored_rows in *. simpl.
    by rewrite Hrows, Hw, app_assoc.
  - by exists added.
Qed.

Lemma init_db_rows w : stored_rows (init_db w).2 = stored_rows w.
Proof.
  unfold init_db, stored_rows.
  destruct (investors_db w) eqn:E; simpl; by rewrite ?E.
Qed.

Section WholeRun.
Variable now : nat → str.
Variable http_get : nat → str → response.
Variable url_input : str.
Variable multiselect : str → list str → list str.

(** Each module keeps the rows the store already holds. *)
Lemma streamlit_ui_extends base w :
  extends base w →
  extends base (streamlit_ui now http_get url_input multiselect w).2.
Proof.
  intros Hw. unfold streamlit_ui.
  apply bind_preserves.
  { destruct Hw as [added Hw]. exists added. by rewrite init_db_rows. }
  intros _ w1 Hw1. apply bind_preserves.
  { unfold fetch_articles_from_user_input. rewrite fetch_each_run. exact Hw1. }
  intros articles w2 Hw2. apply bind_preserves.
  { apply for_each_preserves; [|done].
    intros _ article w3 Hw3. apply bind_preserves.
    - rewrite extract_run. exact Hw3.
    - intros extracted w4. apply insert_data_to_db_extends. }
  intros _ w3 Hw3. by rewrite show_investors_frame.
Qed.
End WholeRun.

(** X1.  A run of the whole interface only appends to the store: the rows it
    held before are still there, in order, followed by the rows added,
    whether the run completes or an exception ends it. *)
Theorem streamlit_ui_only_appends
    (now : nat → str) (http_get : nat → str → response) (url_input : str)
    (multiselect : str → list str → list str) (w : World) :
  ∃ added,
    stored_rows (streamlit_ui now http_get url_input multiselect w).2 =
    stored_rows w ++ added.
Proof.
  apply (streamlit_ui_extends now http_get url_input multiselect
           (stored_rows w) w).
  exists []. by rewrite app_nil_r.
Qed.

(** ** What a whole run stores *)

Section RunInvariants.
Variable now : nat → str.
Variable http_get : nat → str → response.
Variable url_input : str.
Variable multiselect : str → list str → list str.

(** A property of the store alone that the creation of the table and each
    call of [insert_data_to_db] keep holds after a whole run. *)
Lemma streamlit_ui_keeps (P : option Table → Prop) w :
  (P None → P (Some {| rows := []; last_id := 0 |})) →
  (∀ entries w1, P (investors_db w1) →
     P (investors_db (insert_data_to_db entries w1).2)) →
  P (investors_db w) →
  P (investors_db (streamlit_ui now http_get url_input multiselect w).2).
Proof.
  intros Hinit Hins Hw. unfold streamlit_ui.
  apply (bind_preserves (λ w, P (investors_db w))).
  { unfold init_db. destruct (investors_db w) eqn:E; simpl; [by rewrite E|auto]. }
  intros _ w1 Hw1. apply (bind_preserves (λ w, P (investors_db w))).
  { unfold fetch_articles_from_user_input. rewrite fetch_each_run. exact Hw1. }
  intros articles w2 Hw2. apply (bind_preserves (λ w, P (investors_db w))).
  { apply (for_each_preserves (λ w, P (investors_db w))); [|done].
    intros _ article w3 Hw3. apply (bind_preserves (λ w, P (investors_db w))).
    - rewrite extract_run. exact Hw3.
    - intros extracted w4. apply Hins. }
  intros _ w3 Hw3. by rewrite show_investors_frame.
Qed.
End RunInvariants.

(** X8.  The ids go upwards.  When the ids of the stored rows increase
    strictly in the order of the table, they still do after a call of
    [insert_data_to_db] and after a whole run, whether these return or
    raise: every new row gets an id larger than all ids before it.  So the
    id stays a key, and the order of the table is the order of the ids. *)
Theorem ids_stay_ascending
    (now : nat → str) (http_get : nat → str → response) (url_input : str)
    (multiselect : str → list str → list str)
    (entries : list InvestorRecord) (w : World) :
  ascending (ids w) →
  ascending (ids (insert_data_to_db entries w).2) ∧
  ascending (ids (streamlit_ui now http_get url_input multiselect w).2) ∧
  NoDup (ids (streamlit_ui now http_get url_input multiselect w).2).
Proof.
  intros Hw. split; [by apply insert_data_to_db_ascending|].
  assert (H : ascending
                (ids (streamlit_ui now http_get url_input multiselect w).2)).
  { apply (streamlit_ui_keeps now http_get url_input multiselect
             (λ db, ascending (map fst (rows_of db)))); [done| |done].
    intros es w1. apply insert_data_to_db_ascending. }
  split; [done | by apply ascending_NoDup].
Qed.

(** A run on the table of two rows, with ids 1 and 2. *)
Lemma ids_stay_ascending_witness :
  ascending (ids (insert_data_to_db [sample_record] (world_with two_rows)).2) ∧
  ascending
    (ids (streamlit_ui fixed_clock sample_page sample_input select_all
            (world_with two_rows)).2) ∧
  NoDup
    (ids (streamlit_ui fixed_clock sample_page sample_input select_all
            (world_with two_rows)).2).
Proof.
  apply (ids_stay_ascending fixed_clock sample_page sample_input select_all
           [sample_record] (world_with two_rows)).
  repeat constructor.
Defined.

Lemma init_db_run w :
  ∃ w0, init_db w = (Ok (), w0) ∧ stored_rows w0 = stored_rows w ∧
        investors_db w0 ≠ None ∧ clock_reads w0 = clock_reads w ∧
        requests w0 = requests w ∧ warnings w0 = warnings w.
Proof.
  unfold init_db, stored_rows. destruct (investors_db w) eqn:E; eexists;
    (split; [reflexivity|]); simpl; rewrite ?E; done.
Qed.

Lemma record_of_plain text url name stamp :
  plain (sectors (record_of text url name stamp)) ∧
  plain (geographies (record_of text url name stamp)).
Proof.
  unfold record_of; cbn [sectors geographies].
  split; apply plain_join, keywords_in_plain; by repeat constructor.
Qed.

Section StoreLoop.
Variable now : nat → str.

Lemma records_keys text url names start :
  map (λ r, (source r, fund r))
    (zip_with (λ name k, record_of text url name (now k))
       names (seq start (length names))) = map (λ name, (url, name)) names.
Proof.
  revert start. induction names as [|name names IH]; intros start; simpl;
    [done | by rewrite IH].
Qed.

(** One turn of the loop: the records of the article are extracted, which
    reads the clock once per record, and inserted. *)
Lemma store_articles_cons a articles w :
  store_articles now (a :: articles) w =
  match insert_data_to_db
          (zip_with (λ name k, record_of (text a) (url a) name (now k))
             (funds_of (text a))
             (seq (clock_reads w) (length (funds_of (text a)))))
          (advance_clock (length (funds_of (text a))) w) with
  | (Ok _, w') => store_articles now articles w'
  | (Raise e, w') => (Raise e, w')
  end.
Proof.
  unfold store_articles. cbn [for_each]. unfold mbind, M_bind.
  rewrite extract_run. by destruct (insert_data_to_db _ _) as [[[]|e] w'].
Qed.

(** The loop commits the articles one by one: the rows added are those of
    the articles [done] before the first insert that failed, if any. *)
Lemma store_articles_run articles w :
  ∃ added done,
    stored_rows (store_articles now articles w).2 = stored_rows w ++ added ∧
    done `prefix_of` articles ∧
    map row_key added = concat (map rows_for done) ∧
    Forall (λ row, ∃ a, a ∈ done ∧ record_from a row) added ∧
    match (store_articles now articles w).1 with
    | Ok _ => done = articles
    | Raise e =>
        done ≠ articles ∧
        ∃ msg, e = OperationalError msg ∧
               (investors_db w ≠ None → msg = txt "database or disk is full")
    end.
Proof.
  revert w. induction articles as [|a articles IH]; intros w.
  - exists [], []. simpl. rewrite app_nil_r. by repeat split.
  - rewrite store_articles_cons.
    set (recs := zip_with _ _ _).
    set (w1 := advance_clock _ w).
    destruct (insert_data_to_db_outcome recs w1)
      as [(new & w2 & -> & Hrows & Hsnd & _ & Hkeep) | (msg & Hne & -> & Hmsg)].
    + destruct (IH w2) as (added & done & Hst & Hpre & Hkeys & Hrec & Hres).
      exists (new ++ added), (a :: done).
      split; [by rewrite Hst, Hrows, app_assoc|].
      split; [by apply prefix_cons|].
      split; [|split].
      * rewrite map_app, Hkeys. cbn [map concat]. f_equal.
        unfold row_key.
        rewrite <- (map_map snd (λ r, (source r, fund r))), Hsnd.
        apply records_keys.
      * apply Forall_app. split.
        -- apply Forall_forall. intros row Hrow. exists a. split; [left|].
           assert (Hin : row.2 ∈ recs).
           { rewrite <- Hsnd. apply list_elem_of_fmap. by exists row. }
           apply records_shape in Hin as (name & stamp & Hname & Heq).
           by exists name, stamp.
        -- eapply Forall_impl; [exact Hrec|].
           intros row (a' & Ha' & Hfrom). exists a'. split; [by right|done].
      * destruct (store_articles now articles w2).1 as [[]|e].
        -- by rewrite Hres.
        -- destruct Hres as (Hd & msg & -> & Hmsg). split; [congruence|].
           exists msg. split; [done|]. intros Hdb. apply Hmsg, Hkeep. exact Hdb.
    + exists [], []. simpl. rewrite app_nil_r.
      split; [done|]. split; [apply prefix_nil|]. split; [done|].
      split; [done|]. split; [done|].
      exists msg. split; [done|]. exact Hmsg.
Qed.

(** The loop makes no request and shows no warning. *)
Lemma store_articles_frame articles w :
  same_outside_store w (store_articles now articles w).2.
Proof.
  revert w. induction articles as [|a articles IH]; intros w; [done|].
  rewrite store_articles_cons.
  set (recs := zip_with _ _ _).
  set (w1 := advance_clock _ w).
  destruct (insert_data_to_db_outcome recs w1)
    as [(new & w2 & -> & _ & _ & Hw2 & _) | (msg & _ & -> & _)]; [|done].
  destruct (IH w2) as [H1 H2]. split.
  - rewrite H1, Hw2. done.
  - rewrite H2, Hw2. done.
Qed.

(** The loop does not drop the table. *)
Lemma store_articles_keeps_table articles w :
  investors_db w ≠ None →
  investors_db (store_articles now articles w).2 ≠ None.
Proof.
  apply (for_each_preserves (λ w, investors_db w ≠ None)).
  intros _ article w1 Hw1.
  apply (bind_preserves (λ w, investors_db w ≠ None)).
  - rewrite extract_run. exact Hw1.
  - intros extracted w2 Hw2.
    destruct (insert_data_to_db_outcome extracted w2)
      as [(new & w3 & -> & _ & _ & _ & Hkeep) | (msg & _ & -> & _)]; auto.
Qed.
End StoreLoop.

Section RunSteps.
Variable now : nat → str.
Variable http_get : nat → str → response.
Variable url_input : str.
Variable multiselect : str → list str → list str.

(** A run is: create the table, fetch, store article by article, display. *)
Lemma streamlit_ui_run w :
  ∃ w1,
    stored_rows w1 = stored_rows w ∧ investors_db w1 ≠ None ∧
    requests w1 = requests w + length (entered_urls url_input) ∧
    warnings w1 =
      warnings w ++
      pick (requests w) (entered_urls url_input) (warning_of http_get) ∧
    streamlit_ui now http_get url_input multiselect w =
      match store_articles now (fetched http_get url_input w) w1 with
      | (Ok _, w2) => show_investors multiselect w2
      | (Raise e, w2) => (Raise e, w2)
      end.
Proof.
  destruct (init_db_run w) as (w0 & Hinit & Hrows & Hdb & _ & Hreq & Hwarn).
  eexists. split; [|split; [|split; [|split]]]; last first.
  - unfold streamlit_ui. unfold mbind at 1, M_bind at 1. rewrite Hinit.
    unfold mbind at 1, M_bind at 1.
    unfold fetch_articles_from_user_input. rewrite fetch_each_run.
    unfold mbind at 1, M_bind at 1. unfold fetched. rewrite <- Hreq.
    reflexivity.
  - simpl. by rewrite Hwarn, Hreq.
  - simpl. by rewrite Hreq.
  - exact Hdb.
  - exact Hrows.
Qed.
End RunSteps.

(** X9.  Every row a run adds is a record of a page it fetched: the record
    the extractor builds, for a fund name found in the text of the page,
    from the page that one of the requests of the run returned for an
    address the user entered.  This holds whether the run returns or
    raises. *)
Theorem streamlit_ui_rows_are_extracted_records
    (now : nat → str) (http_get : nat → str → response) (url_input : str)
    (multiselect : str → list str → list str) (w : World) :
  ∃ added,
    stored_rows (streamlit_ui now http_get url_input multiselect w).2 =
      stored_rows w ++ added ∧
    ∀ row, row ∈ added →
      ∃ i u paragraphs stamp,
        entered_urls url_input !! i = Some u ∧
        http_get (requests w + i) u = Page paragraphs ∧
        row.2 = record_of (join (txt " ") paragraphs) u (fund row.2) stamp ∧
        fund_phrase (fund row.2) ∧
        occurs_in (fund row.2) (join (txt " ") paragraphs).
Proof.
  destruct (streamlit_ui_run now http_get url_input multiselect w)
    as (w1 & Hrows & _ & _ & _ & ->).
  destruct (store_articles_run now (fetched http_get url_input w) w1)
    as (added & done & Hst & Hpre & _ & Hrec & _).
  exists added. split.
  - destruct (store_articles now _ w1) as [[[]|e] w2]; cbn [fst snd] in *;
      rewrite ?show_investors_frame; by rewrite Hst, Hrows.
  - intros row Hrow. rewrite Forall_forall in Hrec.
    destruct (Hrec row Hrow) as (a & Ha & name & stamp & Hname & Heq).
    destruct Hpre as [rest Hpre].
    assert (Hf : a ∈ fetched http_get url_input w).
    { rewrite Hpre. apply elem_of_app. by left. }
    apply elem_of_pick in Hf as (i & u & Hu & Hart). unfold article_of in Hart.
    destruct (http_get (requests w + i) u) as [paragraphs|] eqn:E; [|done].
    injection Hart as <-. simpl in *.
    exists i, u, paragraphs, stamp. rewrite Heq. simpl.
    split; [done|]. split; [done|]. split; [done|].
    by apply findall_fund_sound, funds_of_elem.
Qed.

(** X10.  A run stores the articles one by one, each in a transaction of its
    own.  The rows added are, in order, one row per distinct fund name of
    each article of an initial part [done] of the fetched articles.  When the
    run returns, [done] is all of them; when an insert fails, the articles
    before it stay stored, nothing of the failing article and of those after
    it is, and the run ends with the error of the store. *)
Theorem streamlit_ui_stores_article_by_article
    (now : nat → str) (http_get : nat → str → response) (url_input : str)
    (multiselect : str → list str → list str) (w : World) :
  ∃ added done,
    stored_rows (streamlit_ui now http_get url_input multiselect w).2 =
      stored_rows w ++ added ∧
    done `prefix_of` fetched http_get url_input w ∧
    map row_key added = concat (map rows_for done) ∧
    (∀ shown,
       (streamlit_ui now http_get url_input multiselect w).1 = Ok shown →
       done = fetched http_get url_input w) ∧
    (done ≠ fetched http_get url_input w →
     (streamlit_ui now http_get url_input multiselect w).1 =
       Raise (OperationalError (txt "database or disk is full"))).
Proof.
  destruct (streamlit_ui_run now http_get url_input multiselect w)
    as (w1 & Hrows & Hdb & _ & _ & ->).
  destruct (store_articles_run now (fetched http_get url_input w) w1)
    as (added & done & Hst & Hpre & Hkeys & _ & Hres).
  exists added, done.
  destruct (store_articles now _ w1) as [[[]|e] w2]; simpl in Hst, Hres.
  - rewrite show_investors_frame, Hst, Hrows. by repeat split.
  - simpl. rewrite Hst, Hrows.
    destruct Hres as (Hne & msg & -> & Hmsg). rewrite (Hmsg Hdb).
    by repeat split.
Qed.

(** X11.  On values this program stored, a run fails only when the ids run
    out.  When the user selects among the options offered, and the sectors
    and geographies of the rows already stored hold no pattern metacharacter
    (as all values written by the extractor do), a run either returns or
    raises "database or disk is full": a failed request does not end it, the
    table is never missing when it is read, and the pattern of a filter is
    always well formed. *)
Theorem streamlit_ui_fails_only_when_full
    (now : nat → str) (http_get : nat → str → response) (url_input : str)
    (multiselect : str → list str → list str) (w : World) :
  (∀ label options, multiselect label options ⊆ options) →
  Forall (λ row, plain (sectors row.2) ∧ plain (geographies row.2))
    (stored_rows w) →
  (∃ shown, (streamlit_ui now http_get url_input multiselect w).1 = Ok shown) ∨
  (streamlit_ui now http_get url_input multiselect w).1 =
    Raise (OperationalError (txt "database or disk is full")).
Proof.
  intros Hsel Hplain.
  destruct (streamlit_ui_run now http_get url_input multiselect w)
    as (w1 & Hrows & Hdb & _ & _ & ->).
  destruct (store_articles_run now (fetched http_get url_input w) w1)
    as (added & done & Hst & _ & _ & Hrec & Hres).
  pose proof (store_articles_keeps_table now
                (fetched http_get url_input w) w1 Hdb) as Hdb2.
  destruct (store_articles now _ w1) as [[[]|e] w2]; simpl in *.
  - left. destruct (investors_db w2) as [t|] eqn:Ht; [|done].
    assert (Hall : Forall (λ row : Z * InvestorRecord,
                     plain (sectors row.2) ∧ plain (geographies row.2))
                     (rows t)).
    { change (rows t) with (rows_of (Some t)). rewrite <- Ht.
      fold (stored_rows w2). rewrite Hst, Hrows. apply Forall_app.
      split; [done|]. eapply Forall_impl; [exact Hrec|].
      intros row (a & _ & name & stamp & _ & ->). apply record_of_plain. }
    rewrite Forall_forall in Hall.
    destruct (show_investors_run multiselect w2 t Ht) as [kept ->].
    + apply Forall_forall. intros v Hv. apply Hsel in Hv.
      apply elem_of_filter_options in Hv as (row & Hrow & <-).
      by apply Hall.
    + apply Forall_forall. intros v Hv. apply Hsel in Hv.
      apply elem_of_filter_options in Hv as (row & Hrow & <-).
      by apply Hall.
    + eauto.
  - right. destruct Hres as (_ & msg & -> & Hmsg). by rewrite (Hmsg Hdb).
Qed.

(** A run on the table of two rows by a user who selects every option. *)
Lemma streamlit_ui_fails_only_when_full_witness :
  (∃ shown,
     (streamlit_ui fixed_clock sample_page sample_input select_all
        (world_with two_rows)).1 = Ok shown) ∨
  (streamlit_ui fixed_clock sample_page sample_input select_all
     (world_with two_rows)).1 =
    Raise (OperationalError (txt "database or disk is full")).
Proof.
  apply (streamlit_ui_fails_only_when_full fixed_clock sample_page sample_input
           select_all (world_with two_rows)).
  - by intros label options v.
  - by repeat constructor.
Defined.

(** X16.  A run makes one request per entered address and no other, and
    shows one warning per request that failed and no other, whatever the
    store does afterwards: the articles fetched and the warnings shown
    together are as many as the addresses. *)
Theorem streamlit_ui_requests_once_per_url
    (now : nat → str) (http_get : nat → str → response) (url_input : str)
    (multiselect : str → list str → list str) (w : World) :
  requests (streamlit_ui now http_get url_input multiselect w).2 =
    requests w + length (entered_urls url_input) ∧
  warnings (streamlit_ui now http_get url_input multiselect w).2 =
    warnings w ++
    pick (requests w) (entered_urls url_input) (warning_of http_get) ∧
  length (fetched http_get url_input w) +
  length (pick (requests w) (entered_urls url_input) (warning_of http_get)) =
    length (entered_urls url_input).
Proof.
  destruct (streamlit_ui_run now http_get url_input multiselect w)
    as (w1 & _ & _ & Hreq & Hwarn & ->).
  destruct (store_articles_frame now (fetched http_get url_input w) w1)
    as [H1 H2].
  split; [|split; [|apply pick_lengths]];
    destruct (store_articles now _ w1) as [[[]|e] w2]; simpl in *;
    rewrite ?show_investors_frame; congruence.
Qed.
